(** * RockRawler: a shallow embedding of [RockRawler.go]

    The file follows the Go source top to bottom: the fragment of the Go
    standard library the program calls ([strings], [regexp]), then
    [parseHeaders], [extractHostname], [isUnique], [appendResult],
    [StartCrawler], [CStartCrawler] and the loop of [main].

    Go strings are byte strings; they are modelled by [string], whose
    characters are the 256 byte values. *)

From Stdlib Require Import ZArith Ascii String List Lia Bool.
From stdpp Require Import base option list gmap strings.

Local Open Scope Z_scope.

(** ** Package [strings] *)

Module strings.

(** [strings.HasPrefix(s, prefix)]. *)
Fixpoint HasPrefix (s prefix : string) : bool :=
  match prefix, s with
  | EmptyString, _ => true
  | String _ _, EmptyString => false
  | String p prefix', String c s' =>
      if Ascii.eqb c p then HasPrefix s' prefix' else false
  end.

(** [strings.HasSuffix(s, suffix)]. *)
Definition HasSuffix (s suffix : string) : bool :=
  let n := String.length s in
  let k := String.length suffix in
  (k <=? n)%nat && String.eqb (String.substring (n - k) k s) suffix.

(** [strings.Index(s, substr)]: the byte offset of the first instance of
    [substr] in [s], or [-1]. *)
Fixpoint Index (s substr : string) : Z :=
  if HasPrefix s substr then 0
  else match s with
       | EmptyString => -1
       | String _ s' =>
           let i := Index s' substr in
           if i <? 0 then -1 else i + 1
       end.

(** [strings.Contains(s, substr)] is [Index(s, substr) >= 0]. *)
Definition Contains (s substr : string) : bool := 0 <=? Index s substr.

(** Go slices [s[:m]] and [s[m:]]. *)
Definition slice_to (s : string) (m : Z) : string :=
  String.substring 0 (Z.to_nat m) s.

Definition slice_from (s : string) (m : Z) : string :=
  String.substring (Z.to_nat m) (String.length s - Z.to_nat m) s.

Definition len (s : string) : Z := Z.of_nat (String.length s).

(** The loop of [genSplit(s, sep, 0, n)] for a non-empty separator: at most
    [cuts] times, cut [s] at the first instance of [sep]; what is left is
    the last piece. *)
Fixpoint genSplit_loop (cuts : nat) (s sep : string) : list string :=
  match cuts with
  | O => [s]
  | S cuts' =>
      let m := Index s sep in
      if m <? 0 then [s]
      else slice_to s m :: genSplit_loop cuts' (slice_from s (m + len sep)) sep
  end.

(** [strings.Split(s, sep)] for [sep] non-empty: [n = Count(s, sep) + 1]
    pieces; the loop stops by itself when [sep] no longer occurs, and
    [sep] occurs at most [len(s)] times. *)
Definition Split (s sep : string) : list string :=
  genSplit_loop (String.length s) s sep.

(** [strings.SplitN(s, sep, n)] for [sep] non-empty: [nil] when [n = 0],
    all pieces when [n < 0], else at most [n] pieces, [n] capped at
    [len(s) + 1]. *)
Definition SplitN (s sep : string) (n : Z) : list string :=
  if n =? 0 then []
  else if n <? 0 then Split s sep
  else genSplit_loop (Z.to_nat (Z.min n (len s + 1) - 1)) s sep.

(** [strings.ReplaceAll(s, old, new)] for [old] non-empty: every
    non-overlapping instance of [old], left to right. *)
Fixpoint Replace_loop (fuel : nat) (s old new : string) : string :=
  match fuel with
  | O => s
  | S fuel' =>
      let m := Index s old in
      if m <? 0 then s
      else slice_to s m +:+ new +:+
           Replace_loop fuel' (slice_from s (m + len old)) old new
  end.

Definition ReplaceAll (s old new : string) : string :=
  Replace_loop (String.length s) s old new.

(** White space as [unicode.IsSpace] sees it in a UTF-8 byte string: the
    six ASCII bytes of [asciiSpace], and the encodings of U+0085, U+00A0,
    U+1680, U+2000..U+200A, U+2028, U+2029, U+202F, U+205F and U+3000. *)
Definition asciiSpace (c : ascii) : bool :=
  match c with
  | "009" | "010" | "011" | "012" | "013" | " " => true
  | _ => false
  end%char.

Definition bytes (l : list nat) : string :=
  fold_right (fun n s => String (ascii_of_nat n) s) EmptyString l.

Definition unicodeSpaces : list string :=
  bytes [194; 133]%nat :: bytes [194; 160]%nat :: bytes [225; 154; 128]%nat ::
  map (fun k => bytes [226; 128; k]%nat)
      [128; 129; 130; 131; 132; 133; 134; 135; 136; 137; 138; 168; 169; 175]%nat ++
  [bytes [226; 129; 159]%nat; bytes [227; 128; 128]%nat].

(** Width in bytes of the white-space rune [s] starts with ([0]: none). *)
Definition spaceWidthLeft (s : string) : nat :=
  match s with
  | EmptyString => 0%nat
  | String c _ =>
      if asciiSpace c then 1%nat
      else match List.find (HasPrefix s) unicodeSpaces with
           | Some w => String.length w
           | None => 0%nat
           end
  end.

(** Width in bytes of the white-space rune [s] ends with ([0]: none). *)
Definition spaceWidthRight (s : string) : nat :=
  let n := String.length s in
  match String.get (n - 1) s with
  | None => 0%nat
  | Some c =>
      if asciiSpace c then 1%nat
      else match List.find (HasSuffix s) unicodeSpaces with
           | Some w => String.length w
           | None => 0%nat
           end
  end.

Fixpoint TrimLeft_loop (fuel : nat) (s : string) : string :=
  match fuel with
  | O => s
  | S fuel' =>
      match spaceWidthLeft s with
      | O => s
      | w => TrimLeft_loop fuel' (slice_from s (Z.of_nat w))
      end
  end.

Fixpoint TrimRight_loop (fuel : nat) (s : string) : string :=
  match fuel with
  | O => s
  | S fuel' =>
      match spaceWidthRight s with
      | O => s
      | w => TrimRight_loop fuel' (slice_to s (len s - Z.of_nat w))
      end
  end.

(** [strings.TrimSpace(s)]: all leading and trailing white space removed. *)
Definition TrimSpace (s : string) : string :=
  let s1 := TrimLeft_loop (String.length s) s in
  TrimRight_loop (String.length s1) s1.

End strings.

(** ** Outcomes of a Go call

    A call returns or panics (an index out of range, [regexp.MustCompile] on
    a bad pattern).  Two more outcomes belong to the model only: the step
    budget of the crawl loop is used up, or the call reaches a part of a
    library that is not modelled (a regular expression outside the fragment
    of [regexp.Compile] below). *)

Inductive outcome (A : Type) : Type :=
| Returns (a : A)
| Panics (msg : string)
| OutOfFuel
| Unmodelled (why : string).

Arguments Returns {A} a.
Arguments Panics {A} msg.
Arguments OutOfFuel {A}.
Arguments Unmodelled {A} why.

Definition obind {A B} (m : outcome A) (k : A -> outcome B) : outcome B :=
  match m with
  | Returns a => k a
  | Panics msg => Panics msg
  | OutOfFuel => OutOfFuel
  | Unmodelled why => Unmodelled why
  end.

Notation "x <-! m ; k" := (obind m (fun x => k))
  (at level 100, m at next level, right associativity,
   format "x  <-!  m ;  '/' k").

Definition returned {A} (m : outcome A) : Prop := exists a, m = Returns a.

(** [l[i]] on a slice: a run-time panic out of range. *)
Definition at_index {A} (l : list A) (i : nat) : outcome A :=
  match l !! i with
  | Some x => Returns x
  | None => Panics "index out of range"
  end.

(** ** [parseHeaders] *)

(** A Go [error] value, by its message; [None] is [nil]. *)
Definition error : Type := string.

Definition errors_New (msg : string) : error := msg.

(** The error of [parseHeaders], which the specification calls
    MalformedHeaders. *)
Definition MalformedHeaders : error :=
  errors_New
    "headers flag not formatted properly (no colon to separate header and value)".

(** The body of [for _, header := range rawHeaders]. *)
Fixpoint parseHeaders_loop (headers : gmap string string) (rawHeaders : list string)
  : outcome (gmap string string) :=
  match rawHeaders with
  | [] => Returns headers
  | header :: rest =>
      let parts :=
        if strings.Contains header ": " then Some (strings.SplitN header ": " 2)
        else if strings.Contains header ":" then Some (strings.SplitN header ":" 2)
        else None in
      match parts with
      | None => parseHeaders_loop headers rest
      | Some parts =>
          p0 <-! at_index parts 0;
          p1 <-! at_index parts 1;
          parseHeaders_loop
            (<[strings.TrimSpace p0 := strings.TrimSpace p1]> headers) rest
      end
  end.

(** [parseHeaders(rawHeaders)] returns the Go pair (map, error); a [nil] map
    and a [nil] error are [None]. *)
Definition parseHeaders (rawHeaders : string)
  : outcome (option (gmap string string) * option error) :=
  let headers : gmap string string := ∅ in
  if negb (String.eqb rawHeaders EmptyString) then
    if negb (strings.Contains rawHeaders ":") then
      Returns (None, Some MalformedHeaders)
    else
      headers <-! parseHeaders_loop headers (strings.Split rawHeaders ";;");
      Returns (Some headers, None)
  else Returns (Some headers, None).

(** ** Package [regexp]

    The fragment of Go's regular expressions that [StartCrawler] builds:
    literals, escaped punctuation, [.], groups, [|] and the postfix
    operators [*], [+], [?].  Input and pattern are read byte by byte, which
    agrees with Go's reading by runes on ASCII patterns. *)

Module regexp.

Inductive Regexp : Type :=
| NoMatch                       (* matches nothing *)
| EmptyMatch                    (* the empty string *)
| Literal (c : ascii)
| AnyCharNotNL                  (* [.] without the s flag *)
| Concat (r1 r2 : Regexp)
| Alternate (r1 r2 : Regexp)
| Star (r : Regexp).

Definition Plus (r : Regexp) : Regexp := Concat r (Star r).
Definition Quest (r : Regexp) : Regexp := Alternate r EmptyMatch.

(** *** Parsing, after [regexp/syntax.Parse] with the Perl flags *)

Inductive CompileResult : Type :=
| Compiled (re : Regexp)
| SyntaxError (msg : string)
| OutsideFragment (why : string).

(** One open group (or the top level): the alternatives already closed by
    a [|], and the items of the concatenation being read, both newest
    first. *)
Record frame : Type := Frame { alts : list Regexp; items : list Regexp }.

Inductive repeatState : Type :=
| NoRepeat      (* the last token was not a repetition *)
| RepeatOp      (* just after [*], [+] or [?]: a [?] makes it lazy *)
| RepeatLazy.   (* after the lazy mark: no repetition may follow *)

Record parser : Type := Parser {
  stack : list frame;          (* enclosing groups, outermost last *)
  top : frame;                 (* the innermost group *)
  escaped : bool;              (* the last byte was an unpaired backslash *)
  afterOpen : bool;            (* the last byte was an opening parenthesis *)
  lastRepeat : repeatState
}.

Definition concatOf (items : list Regexp) : Regexp :=
  fold_left (fun acc r => Concat r acc) items EmptyMatch.

Definition frameRegexp (f : frame) : Regexp :=
  fold_left (fun acc r => Alternate r acc) (alts f) (concatOf (items f)).

Definition isalnum (c : ascii) : bool :=
  let n := nat_of_ascii c in
  ((48 <=? n) && (n <=? 57) || (65 <=? n) && (n <=? 90)
   || (97 <=? n) && (n <=? 122))%nat.

Definition pushItem (p : parser) (r : Regexp) : parser :=
  Parser (stack p) (Frame (alts (top p)) (r :: items (top p)))
         false false NoRepeat.

Definition applyRepeat (p : parser) (op : Regexp -> Regexp)
  : parser + CompileResult :=
  match lastRepeat p, items (top p) with
  | NoRepeat, r :: rest =>
      inl (Parser (stack p) (Frame (alts (top p)) (op r :: rest))
                  false false RepeatOp)
  | NoRepeat, [] => inr (SyntaxError "missing argument to repetition operator")
  | _, _ => inr (SyntaxError "invalid nested repetition operator")
  end.

Definition step (p : parser) (c : ascii) : parser + CompileResult :=
  if escaped p then
    if (nat_of_ascii c <? 128)%nat && negb (isalnum c)
    then inl (pushItem p (Literal c))
    else inr (OutsideFragment "backslash before a letter, digit or non-ASCII byte")
  else
    match c with
    | "\"%char =>
        inl (Parser (stack p) (top p) true false NoRepeat)
    | "("%char =>
        inl (Parser (top p :: stack p) (Frame [] []) false true NoRepeat)
    | ")"%char =>
        match stack p with
        | [] => inr (SyntaxError "unexpected )")
        | outer :: rest =>
            inl (Parser rest
                   (Frame (alts outer) (frameRegexp (top p) :: items outer))
                   false false NoRepeat)
        end
    | "|"%char =>
        inl (Parser (stack p)
               (Frame (concatOf (items (top p)) :: alts (top p)) [])
               false false NoRepeat)
    | "*"%char => applyRepeat p Star
    | "+"%char => applyRepeat p Plus
    | "?"%char =>
        if afterOpen p then inr (OutsideFragment "group flags (?...)")
        else match lastRepeat p with
             | RepeatOp =>
                 inl (Parser (stack p) (top p) false false RepeatLazy)
             | _ => applyRepeat p Quest
             end
    | "."%char => inl (pushItem p AnyCharNotNL)
    | "["%char => inr (OutsideFragment "character class")
    | "{"%char => inr (OutsideFragment "counted repetition")
    | "^"%char | "$"%char => inr (OutsideFragment "anchor")
    | _ =>
        if (nat_of_ascii c <? 128)%nat then inl (pushItem p (Literal c))
        else inr (OutsideFragment "non-ASCII byte")
    end.

Fixpoint parseLoop (p : parser) (s : string) : CompileResult :=
  match s with
  | EmptyString =>
      if escaped p then SyntaxError "trailing backslash at end of expression"
      else match stack p with
           | [] => Compiled (frameRegexp (top p))
           | _ :: _ => SyntaxError "missing closing )"
           end
  | String c s' =>
      match step p c with
      | inl p' => parseLoop p' s'
      | inr res => res
      end
  end.

(** [regexp.Compile(expr)]. *)
Definition Compile (expr : string) : CompileResult :=
  parseLoop (Parser [] (Frame [] []) false false NoRepeat) expr.

(** [regexp.MustCompile(expr)] panics when [Compile] returns an error. *)
Definition MustCompile (expr : string) : outcome Regexp :=
  match Compile expr with
  | Compiled re => Returns re
  | SyntaxError msg =>
      Panics ("regexp: Compile(" +:+ expr +:+ "): error parsing regexp: " +:+ msg)
  | OutsideFragment why => Unmodelled why
  end.

(** *** Matching, by derivatives *)

Fixpoint nullable (r : Regexp) : bool :=
  match r with
  | NoMatch | Literal _ | AnyCharNotNL => false
  | EmptyMatch | Star _ => true
  | Concat r1 r2 => nullable r1 && nullable r2
  | Alternate r1 r2 => nullable r1 || nullable r2
  end.

(** [mkConcat] and [mkAlternate] build the same languages as [Concat] and
    [Alternate] and drop the parts that cannot match. *)
Definition mkConcat (r1 r2 : Regexp) : Regexp :=
  match r1, r2 with
  | NoMatch, _ | _, NoMatch => NoMatch
  | EmptyMatch, _ => r2
  | _, _ => Concat r1 r2
  end.

Definition mkAlternate (r1 r2 : Regexp) : Regexp :=
  match r1, r2 with
  | NoMatch, _ => r2
  | _, NoMatch => r1
  | _, _ => Alternate r1 r2
  end.

(** What is left of [r] after the byte [c]. *)
Fixpoint deriv (c : ascii) (r : Regexp) : Regexp :=
  match r with
  | NoMatch | EmptyMatch => NoMatch
  | Literal c' => if Ascii.eqb c c' then EmptyMatch else NoMatch
  | AnyCharNotNL => if Ascii.eqb c "010"%char then NoMatch else EmptyMatch
  | Concat r1 r2 =>
      if nullable r1
      then mkAlternate (mkConcat (deriv c r1) r2) (deriv c r2)
      else mkConcat (deriv c r1) r2
  | Alternate r1 r2 => mkAlternate (deriv c r1) (deriv c r2)
  | Star r1 => mkConcat (deriv c r1) (Star r1)
  end.

(** Does [r] match a prefix of [s]? *)
Fixpoint matchPrefix (r : Regexp) (s : string) : bool :=
  nullable r ||
  match s with
  | EmptyString => false
  | String c s' => matchPrefix (deriv c r) s'
  end.

(** [re.Match(b)] and [re.MatchString(s)]: does [s] contain a match of
    [re], at any offset? *)
Fixpoint MatchString (re : Regexp) (s : string) : bool :=
  matchPrefix re s ||
  match s with
  | EmptyString => false
  | String _ s' => MatchString re s'
  end.

End regexp.

(** ** Go's [int] on a 64-bit platform *)

Definition int (z : Z) : Z := (z + 2 ^ 63) mod 2 ^ 64 - 2 ^ 63.

(** ** The data of package [colly] that the program touches *)

(** [colly.Request]: the URL, the base URL taken from the page's [base]
    element once the response is parsed, the depth, and the request
    headers. *)
Record Request : Type := mkRequest {
  req_URL : string;
  req_baseURL : option string;
  req_Depth : Z;
  req_Headers : gmap string string
}.

(** An element node of a parsed HTML page: tag name and attributes, both
    lower-cased by the HTML parser, attributes in source order. *)
Record Node : Type := mkNode {
  node_Data : string;
  node_Attr : list (string * string)
}.

(** [colly.Response]: the request it answers, and the element nodes of the
    parsed body in document order. *)
Record Response : Type := mkResponse {
  resp_Request : Request;
  resp_doc : list Node
}.

(** [colly.HTMLElement]. *)
Record HTMLElement : Type := mkHTMLElement {
  elem_Name : string;
  elem_attributes : list (string * string);
  elem_Request : Request;
  elem_Response : Response
}.

(** [e.Attr(k)]: the value of the first attribute named [k], or the empty
    string. *)
Fixpoint attr_lookup (attributes : list (string * string)) (k : string) : string :=
  match attributes with
  | [] => EmptyString
  | (key, val) :: rest => if String.eqb key k then val else attr_lookup rest k
  end.

Definition Attr (e : HTMLElement) (k : string) : string :=
  attr_lookup (elem_attributes e) k.

(** [http.Transport], by the one field the program sets. *)
Record Transport : Type := mkTransport { InsecureSkipVerify : bool }.

(** ** Goroutine code

    The code a goroutine of the crawl runs, as the sequence of its
    operations on what the goroutines share: the package-level [sm]
    ([Load], [Store]), the [results] slice of the running [StartCrawler]
    ([append]), the collector ([Request.Visit]) and the network (the HTTP
    backend's [Do]).  Each operation is one atomic step of the scheduler;
    everything between two of them is local to the goroutine. *)

Inductive prog (A : Type) : Type :=
| Ret (a : A)
| sm_Load (key : string) (k : option bool -> prog A)
| sm_Store (key : string) (value : bool) (k : prog A)
| results_append (s : string) (k : prog A)
| Request_Visit (r : Request) (URL : string) (k : prog A)
| backend_Do (r : Request) (k : option (string * list Node) -> prog A).

Arguments Ret {A} a.
Arguments sm_Load {A} key k.
Arguments sm_Store {A} key value k.
Arguments results_append {A} s k.
Arguments Request_Visit {A} r URL k.
Arguments backend_Do {A} r k.

Fixpoint pbind {A B} (p : prog A) (f : A -> prog B) : prog B :=
  match p with
  | Ret a => f a
  | sm_Load key k => sm_Load key (fun r => pbind (k r) f)
  | sm_Store key value k => sm_Store key value (pbind k f)
  | results_append s k => results_append s (pbind k f)
  | Request_Visit r u k => Request_Visit r u (pbind k f)
  | backend_Do r k => backend_Do r (fun resp => pbind (k resp) f)
  end.

Notation "x <- p ;; q" := (pbind p (fun x => q))
  (at level 100, p at next level, right associativity).
Notation "p ;; q" := (pbind p (fun _ => q))
  (at level 100, right associativity).

Definition is_Ret {A} (p : prog A) : bool :=
  match p with Ret _ => true | _ => false end.

(** ** [isUnique]

    [sm] is a [sync.Map]; [isUnique] calls its [Load] and then, when the key
    is absent, its [Store]: two operations. *)
Definition isUnique (url : string) : prog bool :=
  sm_Load url (fun present =>
    match present with
    | Some _ => Ret false
    | None => sm_Store url true (Ret true)
    end).

(** ** The world outside the program

    What the program reaches through libraries that are not modelled here:
    package [net/url], [Request.AbsoluteURL] of colly (which resolves a link
    with [net/url]), the canonical form of a header name, and the network
    together with the HTML parser. *)
Class World : Type := {
  URL : Type;
  (** [url.Parse] *)
  url_Parse : string -> URL + error;
  (** [u.Hostname()], [u.Host], [u.Scheme], [u.Scheme = s], [u.String()] *)
  URL_Hostname : URL -> string;
  URL_Host : URL -> string;
  URL_Scheme : URL -> string;
  URL_setScheme : URL -> string -> URL;
  URL_String : URL -> string;
  (** [r.AbsoluteURL(u)]: the empty string when [u] cannot be resolved *)
  AbsoluteURL : Request -> string -> string;
  (** [textproto.CanonicalMIMEHeaderKey] *)
  CanonicalMIMEHeaderKey : string -> string;
  (** One GET: [None] for a failed request, an error status or a body that
      is not HTML; else the URL after redirects and the parsed page. *)
  http_get : Transport -> Request -> option (string * list Node)
}.

(** ** [extractHostname] and [appendResult] *)

Section Program.

Context `{World}.

Definition extractHostname (urlString : string) : string * option error :=
  match url_Parse urlString with
  | inr err => (EmptyString, Some err)
  | inl u => (URL_Hostname u, None)
  end.

(** The [results] pointer is the slice of the running [StartCrawler]: the
    one [results_append] acts on. *)
Definition appendResult (link : string) (e : HTMLElement) : prog unit :=
  let result := AbsoluteURL (elem_Request e) link in
  if negb (String.eqb result EmptyString) then
    unique <- isUnique result ;;
    if unique then results_append result (Ret tt) else Ret tt
  else Ret tt.

End Program.

(** ** The collector of package [colly]

    After colly v1.2.0 ([colly.go]): [scrape] checks a URL and starts a
    goroutine running [fetch]; [fetch] sends the request and hands the
    parsed page to the [OnHTML] callbacks. *)

Record LimitRule : Type := mkLimitRule {
  DomainGlob : string;
  Parallelism : Z
}.

Record Collector : Type := mkCollector {
  UserAgent : string;
  MaxDepth : Z;
  AllowedDomains : list string;
  URLFilters : list regexp.Regexp;
  Async : bool;
  limitRules : list LimitRule;
  htmlCallbacks : list (string * (HTMLElement -> prog unit));
  requestCallbacks : list (Request -> Request);
  transport : Transport
}.

(** [c.Init()]: the defaults before the options are applied. *)
Definition Collector_Init : Collector :=
  {| UserAgent := "colly - https://github.com/gocolly/colly";
     MaxDepth := 0;
     AllowedDomains := [];
     URLFilters := [];
     Async := false;
     limitRules := [];
     htmlCallbacks := [];
     requestCallbacks := [];
     transport := mkTransport false |}.

Definition NewCollector (options : list (Collector -> Collector)) : Collector :=
  fold_left (fun c f => f c) options Collector_Init.

Definition set_UserAgent (ua : string) (c : Collector) : Collector :=
  mkCollector ua (MaxDepth c) (AllowedDomains c) (URLFilters c) (Async c)
    (limitRules c) (htmlCallbacks c) (requestCallbacks c) (transport c).

Definition set_MaxDepth (depth : Z) (c : Collector) : Collector :=
  mkCollector (UserAgent c) depth (AllowedDomains c) (URLFilters c) (Async c)
    (limitRules c) (htmlCallbacks c) (requestCallbacks c) (transport c).

Definition set_AllowedDomains (domains : list string) (c : Collector) : Collector :=
  mkCollector (UserAgent c) (MaxDepth c) domains (URLFilters c) (Async c)
    (limitRules c) (htmlCallbacks c) (requestCallbacks c) (transport c).

Definition set_URLFilters (filters : list regexp.Regexp) (c : Collector) : Collector :=
  mkCollector (UserAgent c) (MaxDepth c) (AllowedDomains c) filters (Async c)
    (limitRules c) (htmlCallbacks c) (requestCallbacks c) (transport c).

Definition set_Async (a : bool) (c : Collector) : Collector :=
  mkCollector (UserAgent c) (MaxDepth c) (AllowedDomains c) (URLFilters c) a
    (limitRules c) (htmlCallbacks c) (requestCallbacks c) (transport c).

(** [c.Limit(rule)] *)
Definition Limit (rule : LimitRule) (c : Collector) : Collector :=
  mkCollector (UserAgent c) (MaxDepth c) (AllowedDomains c) (URLFilters c)
    (Async c) (limitRules c ++ [rule]) (htmlCallbacks c) (requestCallbacks c)
    (transport c).

(** [c.OnHTML(selector, f)] *)
Definition OnHTML (goquerySelector : string) (f : HTMLElement -> prog unit)
    (c : Collector) : Collector :=
  mkCollector (UserAgent c) (MaxDepth c) (AllowedDomains c) (URLFilters c)
    (Async c) (limitRules c) (htmlCallbacks c ++ [(goquerySelector, f)])
    (requestCallbacks c) (transport c).

(** [c.OnRequest(f)]; the callback changes the request it is given. *)
Definition OnRequest (f : Request -> Request) (c : Collector) : Collector :=
  mkCollector (UserAgent c) (MaxDepth c) (AllowedDomains c) (URLFilters c)
    (Async c) (limitRules c) (htmlCallbacks c) (requestCallbacks c ++ [f])
    (transport c).

(** [c.WithTransport(t)] *)
Definition WithTransport (t : Transport) (c : Collector) : Collector :=
  mkCollector (UserAgent c) (MaxDepth c) (AllowedDomains c) (URLFilters c)
    (Async c) (limitRules c) (htmlCallbacks c) (requestCallbacks c) t.

(** [isMatchingFilter(fs, d)] *)
Definition isMatchingFilter (fs : list regexp.Regexp) (d : string) : bool :=
  existsb (fun r => regexp.MatchString r d) fs.

(** [c.isDomainAllowed(domain)]; no domain is disallowed here. *)
Definition isDomainAllowed (c : Collector) (domain : string) : bool :=
  match AllowedDomains c with
  | [] => true
  | ds => existsb (String.eqb domain) ds
  end.

(** The 64-bit FNV-1a hash under which the visited store keeps a URL. *)
Definition fnv64a (s : string) : Z :=
  fold_left
    (fun h c => (Z.lxor h (Z.of_nat (nat_of_ascii c)) * 1099511628211) mod 2 ^ 64)
    (list_ascii_of_string s) 14695981039346656037.

(** A selector of the form [tag[attr]], the only form the program uses:
    the nodes with that tag that carry that attribute. *)
Definition parseSelector (sel : string) : option (string * string) :=
  let i := strings.Index sel "[" in
  if (i <? 0) || negb (strings.HasSuffix sel "]") then None
  else Some (strings.slice_to sel i,
             strings.slice_to (strings.slice_from sel (i + 1))
                              (strings.len sel - i - 2)).

Definition has_attr (n : Node) (k : string) : bool :=
  existsb (fun kv => String.eqb (fst kv) k) (node_Attr n).

Definition doc_Find (doc : list Node) (sel : string) : list Node :=
  match parseSelector sel with
  | None => []
  | Some (tag, attr) =>
      List.filter (fun n => String.eqb (node_Data n) tag && has_attr n attr) doc
  end.

(** What one process run keeps between two calls of [StartCrawler]: the
    package-level [sm]; and, to speak about the network, the requests
    handed to the HTTP backend so far, oldest first. *)
Record process : Type := mkProcess {
  proc_sm : gmap string bool;
  proc_sent : list Request
}.

(** The state the goroutines of one crawl share. *)
Record crawl : Type := mkCrawl {
  sm : gmap string bool;
  sent : list Request;
  results : list string;           (* the local slice of [StartCrawler] *)
  visited : gset Z;                (* the collector's visited store *)
  goroutines : list (prog unit)    (* started by [scrape], in start order *)
}.

Definition spawn (p : prog unit) (st : crawl) : crawl :=
  mkCrawl (sm st) (sent st) (results st) (visited st) (goroutines st ++ [p]).

Definition mark_visited (h : Z) (st : crawl) : crawl :=
  mkCrawl (sm st) (sent st) (results st) ({[h]} ∪ visited st) (goroutines st).

Section Colly.

Context `{World}.

(** [c.handleOnRequest(request)] *)
Definition handleOnRequest (c : Collector) (request : Request) : Request :=
  fold_left (fun r f => f r) (requestCallbacks c) request.

(** The loop of [c.handleOnHTML(resp)] over the callbacks, and for each
    over the nodes its selector finds. *)
Fixpoint forEachElement (f : HTMLElement -> prog unit) (resp : Response)
    (nodes : list Node) : prog unit :=
  match nodes with
  | [] => Ret tt
  | n :: rest =>
      f (mkHTMLElement (node_Data n) (node_Attr n) (resp_Request resp) resp) ;;
      forEachElement f resp rest
  end.

Fixpoint forEachCallback (callbacks : list (string * (HTMLElement -> prog unit)))
    (resp : Response) : prog unit :=
  match callbacks with
  | [] => Ret tt
  | (sel, f) :: rest =>
      forEachElement f resp (doc_Find (resp_doc resp) sel) ;;
      forEachCallback rest resp
  end.

(** The first step of [c.handleOnHTML(resp)]: the base URL of the request
    is set from the first [base[href]] element of the page. *)
Definition setBaseURL (resp : Response) : Response :=
  let r := resp_Request resp in
  match doc_Find (resp_doc resp) "base[href]" with
  | n :: _ =>
      mkResponse
        (mkRequest (req_URL r) (Some (attr_lookup (node_Attr n) "href"))
                   (req_Depth r) (req_Headers r))
        (resp_doc resp)
  | [] => resp
  end.

(** [c.handleOnHTML(resp)]: the base URL is set, then the callbacks run in
    the order they were registered. *)
Definition handleOnHTML (c : Collector) (resp : Response) : prog unit :=
  forEachCallback (htmlCallbacks c) (setBaseURL resp).

(** The response [fetch] builds from what the network gave for [request]:
    the request with the URL the redirects ended on, and the page. *)
Definition received (request : Request) (page : string * list Node) : Response :=
  mkResponse
    (mkRequest (fst page) None (req_Depth request) (req_Headers request))
    (snd page).

(** The first request to a URL as [scrape] makes it. *)
Definition newRequest (c : Collector) (u : string) (depth : Z) : Request :=
  mkRequest u None depth {[ "User-Agent" := UserAgent c ]}.

(** [c.fetch(...)]: the body of one goroutine. *)
Definition fetch (c : Collector) (u : string) (depth : Z) : prog unit :=
  let request := handleOnRequest c (newRequest c u depth) in
  backend_Do request (fun response =>
    match response with
    | None => Ret tt
    | Some page => handleOnHTML c (received request page)
    end).

(** [c.scrape(u, "GET", depth, ...)] with [checkRevisit]: the checks of
    [requestCheck], then the domain check, then the goroutine.  The error
    it returns is dropped by both callers in the program, so only the
    state is kept. *)
Definition scrape (c : Collector) (u : string) (depth : Z) (st : crawl) : crawl :=
  if String.eqb u EmptyString then st                         (* ErrMissingURL *)
  else if (0 <? MaxDepth c) && (MaxDepth c <? depth) then st  (* ErrMaxDepth *)
  else if (0 <? Z.of_nat (length (URLFilters c)))
          && negb (isMatchingFilter (URLFilters c) u) then st (* ErrNoURLFiltersMatch *)
  else if decide (fnv64a u ∈ visited st) then st              (* ErrAlreadyVisited *)
  else
    let st := mark_visited (fnv64a u) st in
    match url_Parse u with
    | inr _ => st
    | inl parsedURL =>
        let parsedURL :=
          if String.eqb (URL_Scheme parsedURL) EmptyString
          then URL_setScheme parsedURL "http" else parsedURL in
        if negb (isDomainAllowed c (URL_Host parsedURL)) then st (* ErrForbiddenDomain *)
        else spawn (fetch c (URL_String parsedURL) depth) st
    end.

(** [c.Visit(URL)] *)
Definition Visit (c : Collector) (URL : string) (st : crawl) : crawl :=
  scrape c URL 1 st.

(** One operation of a goroutine on the shared state. *)
Definition do_step {A} (c : Collector) (p : prog A) (st : crawl) : prog A * crawl :=
  match p with
  | Ret a => (Ret a, st)
  | sm_Load key k => (k (sm st !! key), st)
  | sm_Store key value k =>
      (k, mkCrawl (<[key := value]> (sm st)) (sent st) (results st)
                  (visited st) (goroutines st))
  | results_append s k =>
      (k, mkCrawl (sm st) (sent st) (results st ++ [s]) (visited st)
                  (goroutines st))
  | Request_Visit r u k =>
      (* r.collector.scrape(r.AbsoluteURL(URL), "GET", r.Depth+1, ...) *)
      (k, scrape c (AbsoluteURL r u) (int (req_Depth r + 1)) st)
  | backend_Do r k =>
      (k (http_get (transport c) r),
       mkCrawl (sm st) (sent st ++ [r]) (results st) (visited st)
               (goroutines st))
  end.

(** The scheduler lets goroutine [i] do its next operation; nothing
    happens when there is no such goroutine or it has finished. *)
Definition sched_step (c : Collector) (i : nat) (st : crawl) : crawl :=
  match goroutines st !! i with
  | None => st
  | Some p =>
      let '(p', st') := do_step c p st in
      mkCrawl (sm st') (sent st') (results st') (visited st')
              (<[i := p']> (goroutines st'))
  end.

(** A schedule is the order in which the goroutines get their turns. *)
Fixpoint run (c : Collector) (schedule : list nat) (st : crawl) : crawl :=
  match schedule with
  | [] => st
  | i :: schedule' => run c schedule' (sched_step c i st)
  end.

(** [c.Wait()] returns once every goroutine has finished. *)
Definition finished (st : crawl) : bool := forallb is_Ret (goroutines st).

(** Callers that run next to each other on the shared state without being
    goroutines of the collector: [schedule] gives the turns. *)
Fixpoint interleave {A} (c : Collector) (schedule : list nat)
    (callers : list (prog A)) (st : crawl) : list (prog A) * crawl :=
  match schedule with
  | [] => (callers, st)
  | i :: schedule' =>
      match callers !! i with
      | None => interleave c schedule' callers st
      | Some p =>
          let '(p', st') := do_step c p st in
          interleave c schedule' (<[i := p']> callers) st'
      end
  end.

(** A call that is not interrupted: all its operations in a row. *)
Fixpoint exec {A} (c : Collector) (p : prog A) (st : crawl) : A * crawl :=
  match p with
  | Ret a => (a, st)
  | sm_Load key k => exec c (k (sm st !! key)) st
  | sm_Store key value k => exec c k (snd (do_step c p st))
  | results_append s k => exec c k (snd (do_step c p st))
  | Request_Visit r u k => exec c k (snd (do_step c p st))
  | backend_Do r k =>
      exec c (k (http_get (transport c) r)) (snd (do_step c p st))
  end.

End Colly.

(** ** [StartCrawler] *)

Section Crawler.

Context `{World}.

(** Lines 38-41: a URL that does not start with [http] gets [http://] in
    front. *)
Definition defaultScheme (url : string) : string :=
  if negb (strings.HasPrefix url "http") then "http://" +:+ url else url.

(** The pattern of line 70. *)
Definition subsPattern (hostname : string) : string :=
  ".*(\.|\/\/)" +:+ strings.ReplaceAll hostname "." "\." +:+ "((#|\/|\?).*)?".

(** The three [OnHTML] callbacks, lines 77-91. *)
Definition onAnchor (e : HTMLElement) : prog unit :=
  let link := Attr e "href" in
  appendResult link e ;;
  Request_Visit (elem_Request e) link (Ret tt).

Definition onScript (e : HTMLElement) : prog unit :=
  appendResult (Attr e "src") e.

Definition onForm (e : HTMLElement) : prog unit :=
  appendResult (Attr e "action") e.

(** What the three callbacks hand to [appendResult] on a page: each link
    resolved against the request the page answers. *)
Definition page_links (resp : Response) : list string :=
  flat_map
    (fun '(sel, attr) =>
       map (fun n => AbsoluteURL (resp_Request resp) (attr_lookup (node_Attr n) attr))
           (doc_Find (resp_doc resp) sel))
    [("a[href]", "href"); ("script[src]", "src"); ("form[action]", "action")].

(** [s] is a link on the page the network gives for [request]. *)
Definition discoverable (t : Transport) (request : Request) (s : string) : Prop :=
  exists page,
    http_get t request = Some page
    /\ s ∈ page_links (setBaseURL (received request page)).

(** The [OnRequest] callback, lines 95-99: [r.Headers.Set(header, value)]
    for every entry of the map.  Go ranges over a map in no fixed order;
    the order matters only between two names with one canonical form. *)
Definition setHeaders (headers : gmap string string) (r : Request) : Request :=
  mkRequest (req_URL r) (req_baseURL r) (req_Depth r)
    (map_fold (fun header value hs => <[CanonicalMIMEHeaderKey header := value]> hs)
              (req_Headers r) headers).

(** Lines 52-105: the collector as it is when [c.Visit(url)] is called. *)
Definition newCrawler (hostname : string) (threads depth : Z)
    (subsInScope insecure : bool) (headers : option (gmap string string))
  : outcome Collector :=
  let c := NewCollector
    [ set_UserAgent
        "Mozilla/5.0 (X11; Linux x86_64; rv:78.0) Gecko/20100101 Firefox/78.0";
      set_AllowedDomains [hostname];
      set_MaxDepth depth;
      set_Async true ] in
  c <-! (if subsInScope then
           re <-! regexp.MustCompile (subsPattern hostname);
           Returns (set_URLFilters [re] (set_AllowedDomains [] c))
         else Returns c);
  let c := Limit (mkLimitRule "*" threads) c in
  let c := OnHTML "a[href]" onAnchor c in
  let c := OnHTML "script[src]" onScript c in
  let c := OnHTML "form[action]" onForm c in
  let c := match headers with
           | Some headers => OnRequest (setHeaders headers) c
           | None => c
           end in
  Returns (WithTransport (mkTransport insecure) c).

(** The state in which [c.Visit(url)] starts: [sm] as the process has it,
    an empty [results], a collector that has visited nothing. *)
Definition crawl_start (proc : process) : crawl :=
  mkCrawl (proc_sm proc) (proc_sent proc) [] ∅ [].

(** [StartCrawler(url, threads, depth, subsInScope, insecure, rawHeaders)],
    in a process in state [proc], with the goroutines scheduled as
    [schedule] says.  When the schedule ends before the goroutines do,
    [c.Wait()] has not returned: [OutOfFuel]. *)
Definition StartCrawler (schedule : list nat) (url : string) (threads depth : Z)
    (subsInScope insecure : bool) (rawHeaders : string) (proc : process)
  : outcome (list string * process) :=
  parsed <-! parseHeaders rawHeaders;
  let headers := fst parsed in
  let url := defaultScheme url in
  let '(hostname, err) := extractHostname url in
  match err with
  | Some _ => Returns ([], proc)          (* the empty [results] *)
  | None =>
      c <-! newCrawler hostname threads depth subsInScope insecure headers;
      let st := Visit c url (crawl_start proc) in
      let st := run c schedule st in
      if finished st
      then Returns (results st, mkProcess (sm st) (sent st))
      else OutOfFuel
  end.

(** ** [CStartCrawler]

    The C array is a block of [size] pointer cells.  [C.malloc] does not
    initialise the block; [C.CString] returns a pointer to a fresh
    NUL-terminated copy of the Go string. *)
Inductive cell : Type :=
| Uninitialised
| NullPtr
| CharPtr (bytes : string).

Definition C_malloc_cells (size : nat) : list cell := repeat Uninitialised size.

Definition C_CString (s : string) : cell :=
  CharPtr (s +:+ String "000"%char EmptyString).

(** [for idx, link := range results { a[idx] = C.CString(link) }]; [a]
    has the Go type of an array of [1<<30 - 1] pointers, so a larger index
    panics. *)
Fixpoint fillCArray (a : list cell) (idx : nat) (results : list string)
  : outcome (list cell) :=
  match results with
  | [] => Returns a
  | link :: rest =>
      if (Z.of_nat idx <? 2 ^ 30 - 1)
      then fillCArray (<[idx := C_CString link]> a) (S idx) rest
      else Panics "index out of range"
  end.

Definition CStartCrawler (schedule : list nat) (url : string) (threads depth : Z)
    (subsInScope insecure : bool) (rawHeaders : string) (proc : process)
  : outcome (list cell * process) :=
  r <-! StartCrawler schedule url threads depth subsInScope insecure rawHeaders proc;
  let results := fst r in
  let size := (length results + 1)%nat in
  let cArray := C_malloc_cells size in
  a <-! fillCArray cArray 0 results;
  Returns (a, snd r).

(** ** The loop of [main]

    One crawl per line of standard input, one after the other in the same
    process; each line comes with the schedule its crawl follows.  The
    value is what [printResults] has written, line by line. *)
Fixpoint main_loop (threads depth : Z) (insecure subsInScope : bool)
    (rawHeaders : string) (lines : list (list nat * string)) (proc : process)
  : outcome (list string * process) :=
  match lines with
  | [] => Returns ([], proc)
  | (schedule, url) :: rest =>
      r <-! StartCrawler schedule url threads depth subsInScope insecure
              rawHeaders proc;
      r' <-! main_loop threads depth insecure subsInScope rawHeaders rest (snd r);
      Returns (fst r ++ fst r', snd r')
  end.

End Crawler.

(** ** A small web to run the crawler on

    A world for the scenarios below.  Its URLs have the form
    [scheme://host/path], without port, user, query, fragment or escapes,
    and its pages link with such URLs in full; on these, [siteWorld] does
    what [net/url] and [AbsoluteURL] do.  The network serves the pages of
    [site] and nothing else. *)

Module Scenario.

Record SimpleURL : Type := mkURL {
  u_Scheme : string;
  u_Host : string;
  u_Path : string
}.

(** A byte below 0x20, or 0x7f: [url.Parse] rejects a string that holds
    one. *)
Definition isCTL (c : ascii) : bool :=
  let n := nat_of_ascii c in ((n <? 32) || (n =? 127))%nat.

Definition stringContainsCTLByte (s : string) : bool :=
  existsb isCTL (list_ascii_of_string s).

Definition parse (rawURL : string) : SimpleURL + error :=
  if stringContainsCTLByte rawURL
  then inr "net/url: invalid control character in URL"
  else
    let i := strings.Index rawURL "://" in
    if i <? 0 then inl (mkURL EmptyString EmptyString rawURL)
    else
      let rest := strings.slice_from rawURL (i + 3) in
      let j := strings.Index rest "/" in
      if j <? 0 then inl (mkURL (strings.slice_to rawURL i) rest EmptyString)
      else inl (mkURL (strings.slice_to rawURL i) (strings.slice_to rest j)
                      (strings.slice_from rest j)).

Definition toString (u : SimpleURL) : string :=
  if String.eqb (u_Scheme u) EmptyString && String.eqb (u_Host u) EmptyString
  then u_Path u
  else u_Scheme u +:+ "://" +:+ u_Host u +:+ u_Path u.

Definition a (href : string) : Node := mkNode "a" [("href", href)].
Definition script (src : string) : Node := mkNode "script" [("src", src)].
Definition form (action : string) : Node := mkNode "form" [("action", action)].

(** The pages: the front page links to [/a] and [/b]; both link to [/c];
    [/c] loads a script; [/subs] links into three other hosts. *)
Definition site : list (string * list Node) :=
  [ ("http://example.com/",
      [a "http://example.com/a"; a "http://example.com/b"]);
    ("http://example.com/a", [a "http://example.com/c"]);
    ("http://example.com/b", [a "http://example.com/c"]);
    ("http://example.com/c", [script "http://example.com/s.js"]);
    ("http://example.com/subs",
      [a "http://api.example.com/y"; a "http://notexample.com/z";
       a "http://example.com.evil.com/"]);
    ("http://api.example.com/y", [form "http://api.example.com/login"]);
    ("http://notexample.com/z", [form "http://notexample.com/login"]);
    ("http://example.com.evil.com/", [form "http://example.com.evil.com/login"]) ].

Fixpoint page_of (pages : list (string * list Node)) (u : string)
  : option (string * list Node) :=
  match pages with
  | [] => None
  | (u', doc) :: rest => if String.eqb u u' then Some (u, doc) else page_of rest u
  end.

#[export] Instance siteWorld : World := {|
  URL := SimpleURL;
  url_Parse := parse;
  URL_Hostname := u_Host;
  URL_Host := u_Host;
  URL_Scheme := u_Scheme;
  URL_setScheme u s := mkURL s (u_Host u) (u_Path u);
  URL_String := toString;
  AbsoluteURL _ link := if strings.HasPrefix link "#" then EmptyString else link;
  CanonicalMIMEHeaderKey key := key;
  http_get _ r := page_of site (req_URL r)
|}.

(** A process that has just started. *)
Definition fresh : process := mkProcess ∅ [].

(** Goroutine [i] gets [n] turns in a row. *)
Definition turns (i n : nat) : list nat := repeat i n.

(** Every goroutine runs to its end before the next one starts: enough
    for crawls of up to [n] goroutines of at most [n] operations each. *)
Definition oneByOne (n : nat) : list nat :=
  flat_map (fun i => turns i n) (seq 0 n).

(** What a call returned, or [d] when it did not return. *)
Definition value_of {A} (o : outcome A) (d : A) : A :=
  match o with Returns a => a | _ => d end.

Definition front : string := "http://example.com/".

(** The front page crawled twice in one process, with the default depth. *)
Definition firstCrawl : outcome (list string * process) :=
  StartCrawler (oneByOne 12) front 5 2 false false EmptyString fresh.

Definition afterFirst : process := snd (value_of firstCrawl ([], fresh)).

Definition secondCrawl : outcome (list string * process) :=
  StartCrawler (oneByOne 12) front 5 2 false false EmptyString afterFirst.


(** The request for the front page, as the collector of [StartCrawler]
    sends it. *)
Definition frontRequest : Request :=
  mkRequest front None 1
    {[ "User-Agent" :=
         "Mozilla/5.0 (X11; Linux x86_64; rv:78.0) Gecko/20100101 Firefox/78.0" ]}.

(** The front page crawled once; [/a] and [/b] are fetched side by side:
    after the 9 operations of the first goroutine, the next two take
    turns. *)
Definition sideBySide : list nat :=
  turns 0 9 ++ [1; 2; 1; 2; 1; 2; 1; 2; 1; 2]%nat.

End Scenario.

(** ** Notions used in the further properties *)

(** [a] holds no byte [c]. *)
Definition lacks (c : ascii) (a : string) : Prop :=
  strings.Contains a (String c EmptyString) = false.

(** Each caller gets its two turns in a row. *)
Definition twoTurnsEach (first n : nat) : list nat :=
  flat_map (fun i => [i; i]) (seq first n).

(** [results] has no duplicates and is within the keys of [sm]. *)
Definition results_unique (st : crawl) : Prop :=
  NoDup (results st) /\ forall s, s ∈ results st -> s ∈ dom (sm st).

(** The user agent [StartCrawler] gives its collector. *)
Definition crawlerUserAgent : string :=
  "Mozilla/5.0 (X11; Linux x86_64; rv:78.0) Gecko/20100101 Firefox/78.0".

(** The page [/subs] of the small web crawled without [subsInScope]. *)
Definition scopedCrawl : outcome (list string * process) :=
  StartCrawler (H := Scenario.siteWorld) (Scenario.oneByOne 20) "example.com/subs"
    5 2 false false EmptyString Scenario.fresh.


(** A hostname byte that [regexp] reads as itself: ASCII and none of the
    bytes with a meaning in a pattern, the dot apart (line 70 escapes the
    dots). *)
Definition plainByte (c : ascii) : bool :=
  (nat_of_ascii c <? 128)%nat
  && negb (existsb (Ascii.eqb c)
             ["\"; "("; ")"; "|"; "*"; "+"; "?"; "["; "{"; "^"; "$"]%char).

Definition plainHost (hostname : string) : Prop :=
  forallb plainByte (list_ascii_of_string hostname) = true.

(** ** [printResults]

    What the loop writes to standard output: [fmt.Printf("%s\n", res)] for
    each result in turn. *)
Definition newline : ascii := "010"%char.

Fixpoint printResults (results : list string) : string :=
  match results with
  | [] => EmptyString
  | res :: rest => res +:+ String newline EmptyString +:+ printResults rest
  end.

(** The page [/subs] of the small web crawled with [subsInScope]. *)
Definition subsCrawl : outcome (list string * process) :=
  StartCrawler (H := Scenario.siteWorld) (Scenario.oneByOne 20) "example.com/subs"
    5 2 true false EmptyString Scenario.fresh.

(** * Properties *)

(** ** Package [strings] on examples *)

Example HasPrefix_http : strings.HasPrefix "https://a.b" "http" = true.
Proof. reflexivity. Qed.

Example Split_two :
  strings.Split "Cookie: a=b;;Referer: http://x/" ";;"
  = ["Cookie: a=b"; "Referer: http://x/"].
Proof. reflexivity. Qed.

Example Split_trailing : strings.Split "a;;" ";;" = ["a"; EmptyString].
Proof. reflexivity. Qed.

Example SplitN_first :
  strings.SplitN "Referer: http://x/: y" ": " 2 = ["Referer"; "http://x/: y"].
Proof. reflexivity. Qed.

Example ReplaceAll_dots :
  strings.ReplaceAll "api.example.com" "." "\." = "api\.example\.com".
Proof. reflexivity. Qed.

Example TrimSpace_both :
  strings.TrimSpace (String "009" "  a b " +:+ strings.bytes [194; 160]%nat) = "a b".
Proof. reflexivity. Qed.


(** ** Facts about [strings] *)

Lemma append_nil_l (s : string) : EmptyString +:+ s = s.
Proof. reflexivity. Qed.

Lemma append_cons (c : ascii) (s t : string) :
  String c s +:+ t = String c (s +:+ t).
Proof. reflexivity. Qed.

Lemma HasPrefix_append (p r : string) : strings.HasPrefix (p +:+ r) p = true.
Proof.
  induction p as [|c p IH].
  - destruct r; reflexivity.
  - rewrite append_cons. simpl. rewrite Ascii.eqb_refl. exact IH.
Qed.

Lemma HasPrefix_true (s p : string) :
  strings.HasPrefix s p = true -> exists r, s = p +:+ r.
Proof.
  revert s. induction p as [|c p IH]; intros s Hs.
  - exists s. reflexivity.
  - destruct s as [|d s]; simpl in Hs; [discriminate|].
    destruct (Ascii.eqb d c) eqn:E; [|discriminate].
    apply Ascii.eqb_eq in E. subst d.
    destruct (IH _ Hs) as [r ->]. exists r. reflexivity.
Qed.

Lemma HasPrefix_iff (s p : string) :
  strings.HasPrefix s p = true <-> exists r, s = p +:+ r.
Proof.
  split; [apply HasPrefix_true|]. intros [r ->]. apply HasPrefix_append.
Qed.

Lemma Index_unfold (s sub : string) :
  strings.Index s sub =
  if strings.HasPrefix s sub then 0
  else match s with
       | EmptyString => -1
       | String _ s' =>
           let i := strings.Index s' sub in if i <? 0 then -1 else i + 1
       end.
Proof. destruct s; reflexivity. Qed.

Lemma Index_lower (s sub : string) : -1 <= strings.Index s sub.
Proof.
  induction s as [|c s IH]; rewrite Index_unfold.
  - destruct (strings.HasPrefix EmptyString sub); lia.
  - destruct (strings.HasPrefix (String c s) sub); [lia|]. cbv zeta.
    destruct (strings.Index s sub <? 0) eqn:E; [lia|].
    apply Z.ltb_ge in E. lia.
Qed.

Lemma Contains_Index (s sub : string) :
  strings.Contains s sub = true -> (strings.Index s sub <? 0) = false.
Proof.
  unfold strings.Contains. intros E. apply Z.leb_le in E. apply Z.ltb_ge. lia.
Qed.

Lemma Contains_nonempty (s : string) (c : ascii) (sub : string) :
  strings.Contains s (String c sub) = true -> (1 <= String.length s)%nat.
Proof.
  destruct s as [|d s]; [discriminate | simpl; lia].
Qed.

(** When the separator occurs, [SplitN(s, sep, 2)] has exactly two parts. *)
Lemma SplitN_two (s : string) (c : ascii) (sub : string) :
  strings.Contains s (String c sub) = true ->
  exists p0 p1, strings.SplitN s (String c sub) 2 = [p0; p1].
Proof.
  intros Hc. pose proof (Contains_nonempty _ _ _ Hc) as Hlen.
  unfold strings.SplitN. simpl (2 =? 0). simpl (2 <? 0). cbv iota.
  replace (Z.to_nat (Z.min 2 (strings.len s + 1) - 1)) with 1%nat
    by (unfold strings.len; lia).
  unfold strings.genSplit_loop. rewrite (Contains_Index _ _ Hc). eauto.
Qed.

(** ** [parseHeaders] *)

Lemma parseHeaders_loop_returns (rawHeaders : list string) :
  forall headers, returned (parseHeaders_loop headers rawHeaders).
Proof.
  induction rawHeaders as [|header rest IH]; intros headers.
  - eexists. reflexivity.
  - simpl. destruct (strings.Contains header ": ") eqn:E1.
    + destruct (SplitN_two _ _ _ E1) as (p0 & p1 & ->). simpl. apply IH.
    + destruct (strings.Contains header ":") eqn:E2.
      * destruct (SplitN_two _ _ _ E2) as (p0 & p1 & ->). simpl. apply IH.
      * apply IH.
Qed.

(** [parseHeaders] never panics: the two indexings [parts[0]] and
    [parts[1]] are always in range. *)
Lemma parseHeaders_returns (rawHeaders : string) :
  returned (parseHeaders rawHeaders).
Proof.
  unfold parseHeaders.
  destruct (negb (rawHeaders =? EmptyString)%string); [|eexists; reflexivity].
  destruct (negb (strings.Contains rawHeaders ":")); [eexists; reflexivity|].
  destruct (parseHeaders_loop_returns (strings.Split rawHeaders ";;") ∅) as [m ->].
  eexists. reflexivity.
Qed.

Lemma parseHeaders_no_colon (rawHeaders : string) :
  rawHeaders <> EmptyString ->
  strings.Contains rawHeaders ":" = false ->
  parseHeaders rawHeaders = Returns (None, Some MalformedHeaders).
Proof.
  intros Hne Hc. unfold parseHeaders.
  destruct (String.eqb_spec rawHeaders EmptyString) as [->|_]; [congruence|].
  simpl. rewrite Hc. reflexivity.
Qed.

(** C5. [parseHeaders] on the three inputs of the specification: two
    well-formed declarations give the two-entry map and no error; a
    non-empty string without a colon gives no map and the MalformedHeaders
    error; the empty string gives the empty map and no error. *)
Theorem parseHeaders_examples :
  parseHeaders "Cookie: a=b;;Referer: http://x/"
    = Returns (Some (<["Cookie" := "a=b"]> (<["Referer" := "http://x/"]> ∅)), None)
  /\ parseHeaders "badheader" = Returns (None, Some MalformedHeaders)
  /\ parseHeaders EmptyString = Returns (Some ∅, None).
Proof.
  split; [|split].
  - vm_compute. reflexivity.
  - reflexivity.
  - reflexivity.
Qed.

(** ** Scheme defaulting *)

Lemma HasPrefix_http_added (url : string) :
  strings.HasPrefix ("http://" +:+ url) "http" = true.
Proof. exact (HasPrefix_append "http" ("://" +:+ url)). Qed.

Lemma defaultScheme_idempotent (url : string) :
  defaultScheme (defaultScheme url) = defaultScheme url.
Proof.
  unfold defaultScheme.
  destruct (strings.HasPrefix url "http") eqn:E; cbn [negb].
  - rewrite E. reflexivity.
  - rewrite HasPrefix_http_added. reflexivity.
Qed.



(** ** A seed that does not parse *)

(** C6. When [extractHostname] fails on the seed (with its scheme in
    place), [StartCrawler] returns the empty list at once: the state of the
    process is unchanged, so no request has been sent. *)
Theorem StartCrawler_invalid_url `{World} (schedule : list nat) (url : string)
    (threads depth : Z) (subsInScope insecure : bool) (rawHeaders : string)
    (proc : process) (err : error) :
  snd (extractHostname (defaultScheme url)) = Some err ->
  StartCrawler schedule url threads depth subsInScope insecure rawHeaders proc
  = Returns ([], proc).
Proof.
  intros Herr. unfold StartCrawler.
  destruct (parseHeaders_returns rawHeaders) as [parsed ->]. simpl.
  destruct (extractHostname (defaultScheme url)) as [hostname e].
  simpl in Herr. subst e. reflexivity.
Qed.

Lemma StartCrawler_invalid_url_witness :
  snd (extractHostname (H := Scenario.siteWorld)
         (defaultScheme ("http://exa" +:+ String "010" "mple.com/")))
    = Some "net/url: invalid control character in URL"
  /\ StartCrawler (H := Scenario.siteWorld) (Scenario.oneByOne 12)
       ("http://exa" +:+ String "010" "mple.com/") 5 2 false false EmptyString
       Scenario.fresh
     = Returns ([], Scenario.fresh).
Proof.
  split; [reflexivity|].
  apply (StartCrawler_invalid_url (H := Scenario.siteWorld) _ _ _ _ _ _ _ _
           "net/url: invalid control character in URL").
  reflexivity.
Defined.

(** ** The three ways [scrape] can end *)

Lemma scrape_cases `{World} (c : Collector) (u : string) (depth : Z) (st : crawl) :
  scrape c u depth st = st
  \/ scrape c u depth st = mark_visited (fnv64a u) st
  \/ exists u', scrape c u depth st
                = spawn (fetch c u' depth) (mark_visited (fnv64a u) st).
Proof.
  unfold scrape.
  destruct (u =? EmptyString)%string; [left; reflexivity|].
  destruct ((0 <? MaxDepth c) && (MaxDepth c <? depth)); [left; reflexivity|].
  destruct ((0 <? Z.of_nat (length (URLFilters c)))
            && negb (isMatchingFilter (URLFilters c) u)); [left; reflexivity|].
  destruct (decide (fnv64a u ∈ visited st)); [left; reflexivity|].
  destruct (url_Parse u) as [parsedURL|err]; [|right; left; reflexivity].
  cbv zeta.
  destruct (negb (isDomainAllowed c _)); [right; left; reflexivity|].
  right. right. eexists. reflexivity.
Qed.

(** ** Collectors that behave alike *)

Section Alike.

Context `{World}.
Variables c1 c2 : Collector.
Hypothesis same_MaxDepth : MaxDepth c1 = MaxDepth c2.
Hypothesis same_URLFilters : URLFilters c1 = URLFilters c2.
Hypothesis same_AllowedDomains : AllowedDomains c1 = AllowedDomains c2.
Hypothesis same_transport : transport c1 = transport c2.
Hypothesis same_fetch : forall u depth, fetch c1 u depth = fetch c2 u depth.




End Alike.

(** ** Headers that do not parse *)






(** ** What each goroutine does to [sm] and [results]

    [keeps_dedup D0 G p]: along [p], a string is appended to [results] only
    after this goroutine has stored it in [sm] ([G] holds the keys it has
    stored so far) and after a [Load] that did not find it, so that it is
    not among [D0], the keys [sm] held when the crawl began. *)

Fixpoint keeps_dedup {A} (D0 G : gset string) (p : prog A) : Prop :=
  match p with
  | Ret _ => True
  | sm_Load key k =>
      (forall v, keeps_dedup D0 G (k (Some v)))
      /\ (key ∉ D0 -> keeps_dedup D0 G (k None))
  | sm_Store key _ k => keeps_dedup D0 ({[key]} ∪ G) k
  | results_append s k => (s ∈ G) /\ (s ∉ D0) /\ keeps_dedup D0 G k
  | Request_Visit _ _ k => keeps_dedup D0 G k
  | backend_Do _ k => forall resp, keeps_dedup D0 G (k resp)
  end.

Lemma keeps_dedup_mono {A} (D0 : gset string) (p : prog A) :
  forall G G', G ⊆ G' -> keeps_dedup D0 G p -> keeps_dedup D0 G' p.
Proof.
  induction p as [a|key k IH|key v k IH|s k IH|r u k IH|r k IH];
    intros G G' Hsub Hp; simpl in *.
  - exact I.
  - destruct Hp as [Hsome Hnone]. split.
    + intros v. eapply IH; eauto.
    + intros Hkey. eapply IH; eauto.
  - eapply IH; [|exact Hp]. set_solver.
  - destruct Hp as (Hin & Hout & Hk). repeat split; [set_solver|exact Hout|].
    eapply IH; eauto.
  - eapply IH; eauto.
  - intros resp. eapply IH; eauto.
Qed.

Lemma keeps_dedup_bind {A B} (D0 : gset string) (p : prog A) (f : A -> prog B) :
  forall G,
    keeps_dedup D0 G p ->
    (forall a G', G ⊆ G' -> keeps_dedup D0 G' (f a)) ->
    keeps_dedup D0 G (pbind p f).
Proof.
  induction p as [a|key k IH|key v k IH|s k IH|r u k IH|r k IH];
    intros G Hp Hf; simpl in *.
  - apply Hf. reflexivity.
  - destruct Hp as [Hsome Hnone]. split.
    + intros v. apply IH; auto.
    + intros Hkey. apply IH; auto.
  - apply IH; [exact Hp|]. intros a G' Hsub. apply Hf. set_solver.
  - destruct Hp as (Hin & Hout & Hk). repeat split; auto.
  - apply IH; auto.
  - intros resp. apply IH; auto.
Qed.

Section Dedup.

Context `{World}.
Variable D0 : gset string.

Lemma appendResult_keeps_dedup (link : string) (e : HTMLElement) (G : gset string) :
  keeps_dedup D0 G (appendResult link e).
Proof.
  unfold appendResult.
  destruct (negb (AbsoluteURL (elem_Request e) link =? EmptyString)%string);
    [|exact I].
  simpl. split.
  - intros _. exact I.
  - intros Hfresh. repeat split; [set_solver|exact Hfresh].
Qed.

Lemma onAnchor_keeps_dedup (e : HTMLElement) (G : gset string) :
  keeps_dedup D0 G (onAnchor e).
Proof.
  unfold onAnchor. apply keeps_dedup_bind.
  - apply appendResult_keeps_dedup.
  - intros _ G' _. exact I.
Qed.

(** The callbacks of a collector all keep the discipline. *)
Definition callbacks_keep_dedup (c : Collector) : Prop :=
  Forall (fun cb => forall e G, keeps_dedup D0 G (snd cb e)) (htmlCallbacks c).

Lemma forEachElement_keeps_dedup (f : HTMLElement -> prog unit) (resp : Response)
    (nodes : list Node) :
  (forall e G, keeps_dedup D0 G (f e)) ->
  forall G, keeps_dedup D0 G (forEachElement f resp nodes).
Proof.
  intros Hf. induction nodes as [|n rest IH]; intros G; simpl; [exact I|].
  apply keeps_dedup_bind; [apply Hf|]. intros _ G' _. apply IH.
Qed.

Lemma forEachCallback_keeps_dedup
    (callbacks : list (string * (HTMLElement -> prog unit))) (resp : Response) :
  Forall (fun cb => forall e G, keeps_dedup D0 G (snd cb e)) callbacks ->
  forall G, keeps_dedup D0 G (forEachCallback callbacks resp).
Proof.
  induction 1 as [|[sel f] rest Hf _ IH]; intros G; simpl; [exact I|].
  apply keeps_dedup_bind; [apply forEachElement_keeps_dedup, Hf|].
  intros _ G' _. apply IH.
Qed.

Lemma fetch_keeps_dedup (c : Collector) (u : string) (depth : Z) (G : gset string) :
  callbacks_keep_dedup c -> keeps_dedup D0 G (fetch c u depth).
Proof.
  intros Hc. unfold fetch. simpl. intros [page|]; [|exact I].
  unfold handleOnHTML. apply forEachCallback_keeps_dedup, Hc.
Qed.

(** The invariant of a crawl: [sm] has only grown; every result is in [sm]
    and was not when the crawl began; every goroutine keeps the
    discipline, with stored keys that are in [sm]. *)
Definition dedup_inv (st : crawl) : Prop :=
  D0 ⊆ dom (sm st)
  /\ (forall s, s ∈ results st -> s ∈ dom (sm st) /\ s ∉ D0)
  /\ Forall (fun p => exists G, G ⊆ dom (sm st) /\ keeps_dedup D0 G p)
            (goroutines st).

Lemma scrape_dedup_inv (c : Collector) (u : string) (depth : Z) (st : crawl) :
  callbacks_keep_dedup c -> dedup_inv st -> dedup_inv (scrape c u depth st).
Proof.
  intros Hc (Hgrow & Hres & Hpool).
  destruct (scrape_cases c u depth st) as [->|[->|[u' ->]]].
  - split; [|split]; assumption.
  - split; [|split]; assumption.
  - split; [|split]; simpl; try assumption.
    apply Forall_app. split; [assumption|].
    apply Forall_singleton. exists ∅. split; [set_solver|].
    apply fetch_keeps_dedup, Hc.
Qed.

Lemma sched_step_dedup_inv (c : Collector) (i : nat) (st : crawl) :
  callbacks_keep_dedup c -> dedup_inv st -> dedup_inv (sched_step c i st).
Proof.
  intros Hc Hinv. unfold sched_step.
  destruct (goroutines st !! i) as [p|] eqn:Hp; [|exact Hinv].
  pose proof Hinv as (Hgrow & Hres & Hpool).
  destruct (Forall_lookup_1 _ _ _ _ Hpool Hp) as (G & HG & Hok).
  destruct p as [a|key k|key v k|s k|r url k|r k]; simpl in *.
  - split; [|split]; simpl; try assumption.
    apply Forall_insert; [assumption|]. exists G. split; assumption.
  - split; [|split]; simpl; try assumption.
    apply Forall_insert; [assumption|]. exists G. split; [assumption|].
    destruct Hok as [Hsome Hnone].
    destruct (sm st !! key) as [v|] eqn:Hkey; [apply Hsome|].
    apply Hnone. apply not_elem_of_dom in Hkey. set_solver.
  - split; [|split]; simpl.
    + rewrite dom_insert_L. set_solver.
    + intros s Hs. rewrite dom_insert_L. destruct (Hres s Hs). set_solver.
    + apply Forall_insert.
      * eapply Forall_impl; [exact Hpool|]. intros q (Gq & HGq & Hq).
        exists Gq. split; [|exact Hq]. rewrite dom_insert_L. set_solver.
      * exists ({[key]} ∪ G). split; [|exact Hok].
        rewrite dom_insert_L. set_solver.
  - destruct Hok as (Hin & Hout & Hk). split; [|split]; simpl.
    + assumption.
    + intros s' Hs'. apply elem_of_app in Hs'. destruct Hs' as [Hs'|Hs'].
      * apply Hres, Hs'.
      * apply list_elem_of_singleton in Hs'. subst s'. split; [set_solver|exact Hout].
    + apply Forall_insert; [assumption|]. exists G. split; assumption.
  - pose proof (scrape_dedup_inv c (AbsoluteURL r url) (int (req_Depth r + 1)) st
                  Hc Hinv) as (Hgrow' & Hres' & Hpool').
    assert (Hsm : sm (scrape c (AbsoluteURL r url) (int (req_Depth r + 1)) st) = sm st).
    { destruct (scrape_cases c (AbsoluteURL r url) (int (req_Depth r + 1)) st)
        as [->|[->|[u' ->]]]; reflexivity. }
    split; [|split]; simpl; try assumption.
    apply Forall_insert; [assumption|]. exists G. split; [|exact Hok].
    rewrite Hsm. exact HG.
  - split; [|split]; simpl; try assumption.
    apply Forall_insert; [assumption|]. exists G. split; [assumption|apply Hok].
Qed.

Lemma run_dedup_inv (c : Collector) (schedule : list nat) :
  callbacks_keep_dedup c ->
  forall st, dedup_inv st -> dedup_inv (run c schedule st).
Proof.
  intros Hc. induction schedule as [|i schedule IH]; intros st Hinv; simpl.
  - exact Hinv.
  - apply IH, sched_step_dedup_inv; assumption.
Qed.

End Dedup.

(** ** The collector [StartCrawler] builds *)

Lemma newCrawler_fields `{World} (hostname : string) (threads depth : Z)
    (subsInScope insecure : bool) (headers : option (gmap string string))
    (c : Collector) :
  newCrawler hostname threads depth subsInScope insecure headers = Returns c ->
  MaxDepth c = depth
  /\ transport c = mkTransport insecure
  /\ htmlCallbacks c
     = [("a[href]", onAnchor); ("script[src]", onScript); ("form[action]", onForm)]
  /\ requestCallbacks c
     = match headers with Some h => [setHeaders h] | None => [] end.
Proof.
  unfold newCrawler. destruct subsInScope.
  - destruct (regexp.MustCompile (subsPattern hostname)); simpl; try discriminate.
    intros [= <-]. destruct headers; repeat split.
  - simpl. intros [= <-]. destruct headers; repeat split.
Qed.

Lemma newCrawler_callbacks_keep_dedup `{World} (D0 : gset string)
    (hostname : string) (threads depth : Z) (subsInScope insecure : bool)
    (headers : option (gmap string string)) (c : Collector) :
  newCrawler hostname threads depth subsInScope insecure headers = Returns c ->
  callbacks_keep_dedup D0 c.
Proof.
  intros Hc. apply newCrawler_fields in Hc as (_ & _ & Hcb & _).
  unfold callbacks_keep_dedup. rewrite Hcb.
  repeat apply Forall_cons_2; try apply Forall_nil_2; simpl; intros e G.
  - apply onAnchor_keeps_dedup.
  - apply appendResult_keeps_dedup.
  - apply appendResult_keeps_dedup.
Qed.

(** What is common to every way [StartCrawler] can return: the state of
    the process is as it was (the seed did not parse), or it is the state
    of a finished run of the collector. *)
Lemma StartCrawler_returns_inv `{World} (schedule : list nat) (url : string)
    (threads depth : Z) (subsInScope insecure : bool) (rawHeaders : string)
    (proc : process) (res : list string) (proc' : process) :
  StartCrawler schedule url threads depth subsInScope insecure rawHeaders proc
    = Returns (res, proc') ->
  (res = [] /\ proc' = proc)
  \/ exists hostname headers c st,
       newCrawler hostname threads depth subsInScope insecure headers = Returns c
       /\ st = run c schedule (Visit c (defaultScheme url) (crawl_start proc))
       /\ finished st = true
       /\ res = results st
       /\ proc' = mkProcess (sm st) (sent st).
Proof.
  unfold StartCrawler.
  destruct (parseHeaders_returns rawHeaders) as [parsed ->]. cbn [obind].
  destruct (extractHostname (defaultScheme url)) as [hostname [err|]].
  - intros [= <- <-]. left. split; reflexivity.
  - destruct (newCrawler hostname threads depth subsInScope insecure (fst parsed))
      as [c| | |] eqn:Hc; cbn [obind]; try discriminate.
    destruct (finished _) eqn:Hfin; [|discriminate].
    intros [= <- <-]. right. exists hostname, (fst parsed), c. eexists.
    repeat split; [exact Hc|exact Hfin].
Qed.

(** ** Deduplication across the crawls of one process *)

(** Whatever the schedule: what [StartCrawler] returns is in [sm]
    afterwards and was not in [sm] before, and [sm] loses nothing. *)
Lemma StartCrawler_dedup `{World} (schedule : list nat) (url : string)
    (threads depth : Z) (subsInScope insecure : bool) (rawHeaders : string)
    (proc : process) (res : list string) (proc' : process) :
  StartCrawler schedule url threads depth subsInScope insecure rawHeaders proc
    = Returns (res, proc') ->
  dom (proc_sm proc) ⊆ dom (proc_sm proc')
  /\ forall s, s ∈ res -> s ∈ dom (proc_sm proc') /\ s ∉ dom (proc_sm proc).
Proof.
  intros Hret. apply StartCrawler_returns_inv in Hret.
  destruct Hret as [[-> ->]|(hostname & headers & c & st & Hc & Hst & _ & -> & ->)].
  - split; [reflexivity|]. intros s Hs. apply elem_of_nil in Hs. destruct Hs.
  - pose proof (newCrawler_callbacks_keep_dedup (dom (proc_sm proc)) _ _ _ _ _ _ _ Hc)
      as Hcb.
    assert (Hinv : dedup_inv (dom (proc_sm proc)) st).
    { subst st. apply run_dedup_inv; [exact Hcb|].
      apply scrape_dedup_inv; [exact Hcb|].
      split; [|split]; simpl.
      - reflexivity.
      - intros s Hs. apply elem_of_nil in Hs. destruct Hs.
      - apply Forall_nil_2. }
    destruct Hinv as (Hgrow & Hres & _). split; [exact Hgrow|exact Hres].
Qed.

(** C1, as the code has it. [sm] belongs to the process, not to the crawl,
    and nothing ever empties it: of two calls of [StartCrawler] in one
    process run, whatever the seeds, the parameters and the schedules, the
    second returns no URL that the first returned. *)
Theorem dedup_is_process_wide `{World}
    (schedule1 schedule2 : list nat) (url1 url2 : string)
    (threads1 depth1 threads2 depth2 : Z)
    (subs1 insecure1 subs2 insecure2 : bool) (rawHeaders1 rawHeaders2 : string)
    (proc0 proc1 proc2 : process) (res1 res2 : list string) :
  StartCrawler schedule1 url1 threads1 depth1 subs1 insecure1 rawHeaders1 proc0
    = Returns (res1, proc1) ->
  StartCrawler schedule2 url2 threads2 depth2 subs2 insecure2 rawHeaders2 proc1
    = Returns (res2, proc2) ->
  forall u, u ∈ res1 -> u ∉ res2.
Proof.
  intros H1 H2 u Hu1 Hu2.
  apply StartCrawler_dedup in H1 as [_ Hres1].
  apply StartCrawler_dedup in H2 as [_ Hres2].
  destruct (Hres1 u Hu1) as [Hin _]. destruct (Hres2 u Hu2) as [_ Hout].
  exact (Hout Hin).
Qed.

(** C1, as the specification has it, fails: crawl the front page twice in
    one process.  The first crawl returns [/a]; the second crawl fetches
    the front page again, [/a] is a link on it, and the second crawl does
    not return it. *)
Lemma crawl_scoped_dedup_counterexample :
  ~ (forall (W : World) schedule1 schedule2 url1 url2 threads depth subsInScope
       insecure rawHeaders proc0 res1 proc1 res2 proc2 u r,
       StartCrawler schedule1 url1 threads depth subsInScope insecure rawHeaders
         proc0 = Returns (res1, proc1) ->
       StartCrawler schedule2 url2 threads depth subsInScope insecure rawHeaders
         proc1 = Returns (res2, proc2) ->
       u ∈ res1 ->
       (* [u] is found again: it is a link on a page the second crawl fetched *)
       r ∈ drop (length (proc_sent proc1)) (proc_sent proc2) ->
       discoverable (mkTransport insecure) r u ->
       u ∈ res2).
Proof.
  intros Hclaim.
  specialize (Hclaim Scenario.siteWorld (Scenario.oneByOne 12) (Scenario.oneByOne 12)
    Scenario.front Scenario.front 5 2 false false EmptyString Scenario.fresh
    (fst (Scenario.value_of Scenario.firstCrawl ([], Scenario.fresh)))
    Scenario.afterFirst
    (fst (Scenario.value_of Scenario.secondCrawl ([], Scenario.fresh)))
    (snd (Scenario.value_of Scenario.secondCrawl ([], Scenario.fresh)))
    "http://example.com/a" Scenario.frontRequest).
  assert (Hin : "http://example.com/a"
                ∈ fst (Scenario.value_of Scenario.secondCrawl ([], Scenario.fresh))).
  { apply Hclaim.
    - vm_compute. reflexivity.
    - vm_compute. reflexivity.
    - vm_compute. repeat constructor.
    - vm_compute. repeat constructor.
    - exists ("http://example.com/",
              [Scenario.a "http://example.com/a"; Scenario.a "http://example.com/b"]).
      split; [reflexivity|]. vm_compute. repeat constructor. }
  vm_compute in Hin. apply elem_of_nil in Hin. exact Hin.
Qed.

Lemma dedup_is_process_wide_witness :
  StartCrawler (H := Scenario.siteWorld) (Scenario.oneByOne 12) Scenario.front
      5 2 false false EmptyString Scenario.fresh
    = Returns (["http://example.com/a"; "http://example.com/b";
                "http://example.com/c"], Scenario.afterFirst)
  /\ StartCrawler (H := Scenario.siteWorld) (Scenario.oneByOne 12) Scenario.front
        5 2 false false EmptyString Scenario.afterFirst
      = Returns ([], snd (Scenario.value_of Scenario.secondCrawl ([], Scenario.fresh)))
  /\ "http://example.com/a" ∈ ["http://example.com/a"; "http://example.com/b";
                               "http://example.com/c"]
  /\ "http://example.com/a" ∉ @nil string.
Proof.
  assert (H1 : StartCrawler (H := Scenario.siteWorld) (Scenario.oneByOne 12)
      Scenario.front 5 2 false false EmptyString Scenario.fresh
    = Returns (["http://example.com/a"; "http://example.com/b";
                "http://example.com/c"], Scenario.afterFirst))
    by (vm_compute; reflexivity).
  assert (H2 : StartCrawler (H := Scenario.siteWorld) (Scenario.oneByOne 12)
      Scenario.front 5 2 false false EmptyString Scenario.afterFirst
    = Returns ([], snd (Scenario.value_of Scenario.secondCrawl ([], Scenario.fresh))))
    by (vm_compute; reflexivity).
  assert (Hu : "http://example.com/a" ∈ ["http://example.com/a"; "http://example.com/b";
                               "http://example.com/c"]) by repeat constructor.
  split; [exact H1|]. split; [exact H2|]. split; [exact Hu|].
  exact (dedup_is_process_wide (H := Scenario.siteWorld) _ _ _ _ _ _ _ _ _ _ _ _ _ _
           _ _ _ _ _ H1 H2 _ Hu).
Defined.

(** ** Every goroutine finishes *)





(** ** A crawl of depth 1

    [on_page t r0 p]: [p] sends nothing, every [Visit] in it comes from a
    request of depth 1, and what it appends to [results] is a link on the
    page of [r0]. *)



Lemma page_links_intro `{World} (resp : Response) (sel attr : string) (n : Node) :
  In (sel, attr)
     [("a[href]", "href"); ("script[src]", "src"); ("form[action]", "action")] ->
  In n (doc_Find (resp_doc resp) sel) ->
  AbsoluteURL (resp_Request resp) (attr_lookup (node_Attr n) attr) ∈ page_links resp.
Proof.
  intros Hsel Hn. apply list_elem_of_In. unfold page_links.
  apply in_flat_map. exists (sel, attr). split; [exact Hsel|].
  apply in_map_iff. exists n. split; [reflexivity|exact Hn].
Qed.

Section DepthOne.

Context `{World}.
Variable t : Transport.
Variable r0 : Request.
Variable page : string * list Node.
Hypothesis page_given : http_get t r0 = Some page.
Hypothesis r0_depth : req_Depth r0 = 1.

(** The response the callbacks see. *)
Let resp : Response := setBaseURL (received r0 page).





End DepthOne.

Lemma setHeaders_depth `{World} (h : gmap string string) (r : Request) :
  req_Depth (setHeaders h r) = req_Depth r.
Proof. reflexivity. Qed.

Section DepthOneCrawl.

Context `{World}.
Variable c : Collector.
Hypothesis c_MaxDepth : MaxDepth c = 1.
Hypothesis c_htmlCallbacks :
  htmlCallbacks c
  = [("a[href]", onAnchor); ("script[src]", onScript); ("form[action]", onForm)].
Hypothesis c_requestCallbacks :
  forall r, req_Depth (handleOnRequest c r) = req_Depth r.
Variable sent0 : list Request.








End DepthOneCrawl.


Lemma newCrawler_keeps_depth `{World} (hostname : string) (threads depth : Z)
    (subsInScope insecure : bool) (headers : option (gmap string string))
    (c : Collector) :
  newCrawler hostname threads depth subsInScope insecure headers = Returns c ->
  forall r, req_Depth (handleOnRequest c r) = req_Depth r.
Proof.
  intros Hc r. apply newCrawler_fields in Hc as (_ & _ & _ & Hreq).
  unfold handleOnRequest. rewrite Hreq. destruct headers; reflexivity.
Qed.




(** ** [isUnique] under concurrency *)

(** C3 fails on the code: [isUnique] is a [Load] followed by a [Store], and
    another caller can run between the two.  Two callers with the same URL,
    on an empty [sm], taking turns: both find the URL absent, and both
    return true. *)
Theorem isUnique_not_atomic `{World} (c : Collector) (url : string) :
  fst (interleave c [0; 1; 0; 1]%nat [isUnique url; isUnique url]
         (crawl_start (mkProcess ∅ [])))
  = [Ret true; Ret true].
Proof.
  simpl. rewrite lookup_empty. reflexivity.
Qed.

(** ** The filter for subdomains *)

(** C4 fails on the code: [Match] looks for the pattern anywhere in the
    URL and the pattern's tail is optional, so the pattern of
    [example.com] accepts every URL that contains [.example.com] or
    [//example.com].  It accepts [api.example.com] and rejects
    [notexample.com], as the specification says, and it accepts
    [example.com.evil.com]; a crawl with [subsInScope] from a page that
    links to the three fetches the first and the third. *)
Theorem subs_filter_admits_foreign_host :
  exists re,
    regexp.MustCompile (subsPattern "example.com") = Returns re
    /\ regexp.MatchString re "http://api.example.com/y" = true
    /\ regexp.MatchString re "http://notexample.com/z" = false
    /\ regexp.MatchString re "http://example.com.evil.com/" = true
    /\ exists res proc',
         StartCrawler (H := Scenario.siteWorld) (Scenario.oneByOne 20)
           "example.com/subs" 5 2 true false EmptyString Scenario.fresh
           = Returns (res, proc')
         /\ map req_URL (proc_sent proc')
            = ["http://example.com/subs"; "http://api.example.com/y";
               "http://example.com.evil.com/"].
Proof.
  eexists. split; [vm_compute; reflexivity|].
  split; [vm_compute; reflexivity|].
  split; [vm_compute; reflexivity|].
  split; [vm_compute; reflexivity|].
  eexists. eexists. split; [vm_compute; reflexivity|].
  vm_compute. reflexivity.
Qed.

(** ** Duplicates in the result *)

(** C9 fails on the code, by the race of C3: the callbacks of two pages
    run in two goroutines.  On the small web, [/a] and [/b] both link to
    [/c]; when their goroutines take turns, both find [/c] absent from
    [sm], and [/c] is appended twice. *)
Theorem concurrent_callbacks_duplicate :
  exists proc',
    StartCrawler (H := Scenario.siteWorld) Scenario.sideBySide Scenario.front
      5 2 false false EmptyString Scenario.fresh
    = Returns (["http://example.com/a"; "http://example.com/b";
                "http://example.com/c"; "http://example.com/c"], proc')
    /\ ~ NoDup ["http://example.com/a"; "http://example.com/b";
                "http://example.com/c"; "http://example.com/c"].
Proof.
  eexists. split; [vm_compute; reflexivity|].
  intros Hnd. apply NoDup_cons_1_1 in Hnd as Hx.
  inversion Hnd as [|x1 l1 _ Hnd1]; subst.
  inversion Hnd1 as [|x2 l2 _ Hnd2]; subst.
  inversion Hnd2 as [|x3 l3 Hnotin _]; subst.
  apply Hnotin. constructor.
Qed.

(** ** The C array *)

Lemma drop_repeat_last {A} (x : A) (n : nat) : drop n (repeat x (n + 1)) = [x].
Proof. induction n as [|n IH]; simpl; [reflexivity|exact IH]. Qed.

(** [fillCArray] writes the strings from [idx] on and nothing else. *)
Lemma fillCArray_spec (res : list string) :
  forall (done rest : list cell),
    (length res <= length rest)%nat ->
    Z.of_nat (length done + length res) <= 2 ^ 30 - 1 ->
    fillCArray (done ++ rest) (length done) res
    = Returns (done ++ map C_CString res ++ drop (length res) rest).
Proof.
  induction res as [|link res IH]; intros done rest Hlen Hmax; simpl.
  - reflexivity.
  - destruct rest as [|x rest]; simpl in Hlen; [lia|].
    destruct (Z.of_nat (length done) <? 2 ^ 30 - 1) eqn:E;
      [|apply Z.ltb_ge in E; simpl in Hmax; lia].
    rewrite insert_app_r_alt by lia. rewrite Nat.sub_diag. simpl.
    replace (done ++ C_CString link :: rest)
      with ((done ++ [C_CString link]) ++ rest)
      by (rewrite <- app_assoc; reflexivity).
    replace (S (length done)) with (length (done ++ [C_CString link]))
      by (rewrite length_app; simpl; lia).
    rewrite IH.
    + rewrite <- app_assoc. reflexivity.
    + lia.
    + rewrite length_app. simpl in *. lia.
Qed.

(** C8 fails on the code: the array has one cell more than there are
    results, and the loop writes the results only.  The cell after the
    last result is as [C.malloc] left it, not the NUL pointer the comment
    in the source announces. *)
Theorem CStartCrawler_no_terminator `{World} (schedule : list nat) (url : string)
    (threads depth : Z) (subsInScope insecure : bool) (rawHeaders : string)
    (proc : process) (res : list string) (proc' : process) :
  StartCrawler schedule url threads depth subsInScope insecure rawHeaders proc
    = Returns (res, proc') ->
  Z.of_nat (length res) <= 2 ^ 30 - 1 ->
  CStartCrawler schedule url threads depth subsInScope insecure rawHeaders proc
  = Returns (map C_CString res ++ [Uninitialised], proc').
Proof.
  intros Hret Hmax. unfold CStartCrawler. rewrite Hret. cbn [obind fst snd].
  pose proof (fillCArray_spec res [] (C_malloc_cells (length res + 1))) as Hfill.
  cbn [app length] in Hfill. rewrite Hfill.
  - unfold C_malloc_cells. rewrite drop_repeat_last. reflexivity.
  - unfold C_malloc_cells. rewrite repeat_length. lia.
  - simpl. lia.
Qed.

Lemma CStartCrawler_no_terminator_witness :
  StartCrawler (H := Scenario.siteWorld) (Scenario.oneByOne 12) Scenario.front
      5 1 false false EmptyString Scenario.fresh
    = Returns (["http://example.com/a"; "http://example.com/b"],
               mkProcess
                 (<["http://example.com/a" := true]>
                    (<["http://example.com/b" := true]> ∅))
                 [Scenario.frontRequest])
  /\ Z.of_nat (length ["http://example.com/a"; "http://example.com/b"]) <= 2 ^ 30 - 1
  /\ CStartCrawler (H := Scenario.siteWorld) (Scenario.oneByOne 12) Scenario.front
       5 1 false false EmptyString Scenario.fresh
     = Returns (map C_CString ["http://example.com/a"; "http://example.com/b"]
                  ++ [Uninitialised],
                mkProcess
                  (<["http://example.com/a" := true]>
                     (<["http://example.com/b" := true]> ∅))
                  [Scenario.frontRequest]).
Proof.
  assert (Hret : StartCrawler (H := Scenario.siteWorld) (Scenario.oneByOne 12)
      Scenario.front 5 1 false false EmptyString Scenario.fresh
    = Returns (["http://example.com/a"; "http://example.com/b"],
               mkProcess
                 (<["http://example.com/a" := true]>
                    (<["http://example.com/b" := true]> ∅))
                 [Scenario.frontRequest]))
    by (vm_compute; reflexivity).
  assert (Hmax : Z.of_nat (length ["http://example.com/a"; "http://example.com/b"])
                 <= 2 ^ 30 - 1) by (vm_compute; discriminate).
  split; [exact Hret|]. split; [exact Hmax|].
  exact (CStartCrawler_no_terminator (H := Scenario.siteWorld) _ _ _ _ _ _ _ _ _ _
           Hret Hmax).
Defined.

(** * Further properties *)

(** ** More facts about [strings] *)

Lemma length_append (a b : string) :
  String.length (a +:+ b) = (String.length a + String.length b)%nat.
Proof. induction a as [|c a IH]; [reflexivity|]. rewrite append_cons. simpl. lia. Qed.

Lemma append_assoc_s (a b c : string) : (a +:+ b) +:+ c = a +:+ b +:+ c.
Proof.
  induction a as [|d a IH]; [reflexivity|]. rewrite !append_cons, IH. reflexivity.
Qed.

Lemma slice_to_append (a b : string) : strings.slice_to (a +:+ b) (strings.len a) = a.
Proof.
  unfold strings.slice_to, strings.len. rewrite Nat2Z.id.
  induction a as [|c a IH].
  - destruct b; reflexivity.
  - rewrite append_cons. simpl. rewrite IH. reflexivity.
Qed.

Lemma substring_all (b : string) : String.substring 0 (String.length b) b = b.
Proof. induction b as [|c b IH]; simpl; [reflexivity|]. rewrite IH. reflexivity. Qed.

Lemma slice_from_append (a b : string) :
  strings.slice_from (a +:+ b) (strings.len a) = b.
Proof.
  unfold strings.slice_from, strings.len. rewrite Nat2Z.id, length_append.
  replace (String.length a + String.length b - String.length a)%nat
    with (String.length b) by lia.
  induction a as [|c a IH].
  - apply substring_all.
  - rewrite append_cons. simpl. exact IH.
Qed.

Lemma HasPrefix_empty (s : string) : strings.HasPrefix s EmptyString = true.
Proof. destruct s; reflexivity. Qed.

Lemma lacks_cons (c d : ascii) (a : string) :
  lacks c (String d a) -> d <> c /\ lacks c a.
Proof.
  unfold lacks, strings.Contains. rewrite Index_unfold. simpl.
  rewrite HasPrefix_empty. destruct (Ascii.eqb_spec d c) as [->|Hne]; simpl.
  - discriminate.
  - intros Hc. split; [exact Hne|].
    destruct (strings.Index a (String c EmptyString) <? 0) eqn:E.
    + apply Z.ltb_lt in E. apply Z.leb_gt. exact E.
    + apply Z.ltb_ge in E. apply Z.leb_gt in Hc. lia.
Qed.

(** The first instance of a separator that starts with [c], after a
    stretch without [c], is right after the stretch. *)
Lemma Index_after_lacking (c : ascii) (sep' a b : string) :
  lacks c a ->
  strings.Index (a +:+ String c sep' +:+ b) (String c sep') = strings.len a.
Proof.
  induction a as [|d a IH]; intros Hlacks.
  - rewrite append_nil_l, Index_unfold.
    rewrite (HasPrefix_append (String c sep') b). reflexivity.
  - apply lacks_cons in Hlacks as [Hne Hlacks].
    rewrite append_cons, Index_unfold. simpl.
    destruct (Ascii.eqb_spec d c) as [->|_]; [congruence|].
    rewrite (IH Hlacks). unfold strings.len.
    destruct (Z.of_nat (String.length a) <? 0) eqn:E; [apply Z.ltb_lt in E; lia|].
    simpl. lia.
Qed.

Lemma Contains_after_lacking (c : ascii) (sep' a b : string) :
  lacks c a ->
  strings.Contains (a +:+ String c sep' +:+ b) (String c sep') = true.
Proof.
  intros Hl. unfold strings.Contains. rewrite (Index_after_lacking _ _ _ _ Hl).
  apply Z.leb_le. unfold strings.len. lia.
Qed.

(** A string that holds [sub] holds every prefix of [sub]. *)
Lemma HasPrefix_shorter (s p q : string) :
  strings.HasPrefix s (p +:+ q) = true -> strings.HasPrefix s p = true.
Proof.
  intros Hp. apply HasPrefix_true in Hp as [r ->].
  rewrite append_assoc_s. apply HasPrefix_append.
Qed.

Lemma Index_shorter (s p q : string) :
  0 <= strings.Index s (p +:+ q) -> 0 <= strings.Index s p.
Proof.
  induction s as [|d s IH]; rewrite (Index_unfold _ (p +:+ q)), (Index_unfold _ p).
  - destruct (strings.HasPrefix EmptyString (p +:+ q)) eqn:E; [|lia].
    rewrite (HasPrefix_shorter _ _ _ E). lia.
  - destruct (strings.HasPrefix (String d s) (p +:+ q)) eqn:E.
    + rewrite (HasPrefix_shorter _ _ _ E). lia.
    + cbv zeta. destruct (strings.Index s (p +:+ q) <? 0) eqn:E2; [lia|].
      apply Z.ltb_ge in E2. specialize (IH E2). intros _.
      destruct (strings.HasPrefix (String d s) p); [lia|].
      destruct (strings.Index s p <? 0) eqn:E3; [apply Z.ltb_lt in E3; lia|].
      apply Z.ltb_ge in E3. lia.
Qed.

Lemma Contains_shorter (s p q : string) :
  strings.Contains s p = false -> strings.Contains s (p +:+ q) = false.
Proof.
  unfold strings.Contains. intros Hp. apply Z.leb_gt in Hp. apply Z.leb_gt.
  destruct (Z_lt_le_dec (strings.Index s (p +:+ q)) 0) as [Hlt|Hge]; [exact Hlt|].
  apply Index_shorter in Hge. lia.
Qed.

(** Without the separator in it, a string is one piece. *)
Lemma Split_one_piece (s sep : string) :
  strings.Contains s sep = false -> strings.Split s sep = [s].
Proof.
  unfold strings.Contains, strings.Split. intros Hc. apply Z.leb_gt in Hc.
  destruct (String.length s); simpl; [reflexivity|].
  destruct (strings.Index s sep <? 0) eqn:E; [reflexivity|].
  apply Z.ltb_ge in E. lia.
Qed.

Lemma genSplit_loop_no_sep (n : nat) (s sep : string) :
  strings.Contains s sep = false -> strings.genSplit_loop n s sep = [s].
Proof.
  unfold strings.Contains. intros Hc. apply Z.leb_gt in Hc.
  destruct n; simpl; [reflexivity|].
  destruct (strings.Index s sep <? 0) eqn:E; [reflexivity|].
  apply Z.ltb_ge in E. lia.
Qed.

(** One cut at a separator that starts with [c], after a stretch without
    [c]. *)
Lemma genSplit_loop_cut (n : nat) (c : ascii) (sep' a b : string) :
  lacks c a ->
  strings.genSplit_loop (S n) (a +:+ String c sep' +:+ b) (String c sep')
  = a :: strings.genSplit_loop n b (String c sep').
Proof.
  intros Hl. simpl. rewrite (Index_after_lacking _ _ _ _ Hl).
  destruct (strings.len a <? 0) eqn:E;
    [apply Z.ltb_lt in E; unfold strings.len in E; lia|].
  rewrite slice_to_append. f_equal. f_equal.
  replace (strings.len a + strings.len (String c sep'))
    with (strings.len (a +:+ String c sep'))
    by (unfold strings.len; rewrite length_append; lia).
  rewrite <- append_assoc_s. apply slice_from_append.
Qed.

Lemma Contains_cons_false (d : ascii) (s sub : string) :
  strings.Contains (String d s) sub = false ->
  strings.HasPrefix (String d s) sub = false /\ strings.Contains s sub = false.
Proof.
  unfold strings.Contains. rewrite Index_unfold.
  destruct (strings.HasPrefix (String d s) sub); [discriminate|]. cbv zeta.
  intros Hc. split; [reflexivity|].
  destruct (strings.Index s sub <? 0) eqn:E.
  - apply Z.ltb_lt in E. apply Z.leb_gt. exact E.
  - apply Z.ltb_ge in E. apply Z.leb_gt in Hc. lia.
Qed.

(** The first [": "] of [p: q] is the one written, when [p] holds none;
    [p] may hold colons. *)
Lemma Index_colon_space (p q : string) :
  strings.Contains p ": " = false ->
  strings.Index (p +:+ ": " +:+ q) ": " = strings.len p.
Proof.
  induction p as [|d p IH]; intros Hc.
  - rewrite append_nil_l, Index_unfold, (HasPrefix_append ": " q). reflexivity.
  - apply Contains_cons_false in Hc as [Hpre Hc].
    rewrite append_cons, Index_unfold.
    assert (Hpre' : strings.HasPrefix (String d (p +:+ ": " +:+ q)) ": " = false).
    { simpl in Hpre |- *. destruct (Ascii.eqb d ":"); [|reflexivity].
      destruct p as [|e p]; [reflexivity|].
      rewrite append_cons. simpl in Hpre |- *.
      destruct (Ascii.eqb e " "); [|reflexivity].
      rewrite HasPrefix_empty in Hpre. discriminate Hpre. }
    rewrite Hpre'. cbv zeta. rewrite (IH Hc). unfold strings.len.
    destruct (Z.of_nat (String.length p) <? 0) eqn:E; [apply Z.ltb_lt in E; lia|].
    simpl. lia.
Qed.

(** ** [parseHeaders]: which strings fail, and what a declaration gives *)

Lemma parseHeaders_with_colon (rawHeaders : string) :
  rawHeaders <> EmptyString ->
  strings.Contains rawHeaders ":" = true ->
  parseHeaders rawHeaders
  = (headers <-! parseHeaders_loop ∅ (strings.Split rawHeaders ";;");
     Returns (Some headers, None)).
Proof.
  intros Hne Hc. unfold parseHeaders.
  destruct (String.eqb_spec rawHeaders EmptyString) as [->|_]; [congruence|].
  simpl. rewrite Hc. reflexivity.
Qed.

(** A declaration is cut at its first [": "]. *)
Lemma parseHeaders_loop_declaration (headers : gmap string string)
    (name value : string) (rest : list string) :
  strings.Contains name ": " = false ->
  parseHeaders_loop headers ((name +:+ ": " +:+ value) :: rest)
  = parseHeaders_loop
      (<[strings.TrimSpace name := strings.TrimSpace value]> headers) rest.
Proof.
  intros Hname.
  assert (Hidx : strings.Index (name +:+ ": " +:+ value) ": " = strings.len name)
    by (apply Index_colon_space, Hname).
  assert (Hc : strings.Contains (name +:+ ": " +:+ value) ": " = true).
  { unfold strings.Contains. rewrite Hidx. apply Z.leb_le. unfold strings.len. lia. }
  cbn [parseHeaders_loop]. rewrite Hc. cbv zeta.
  unfold strings.SplitN. simpl (2 =? 0). simpl (2 <? 0). cbv iota.
  replace (Z.to_nat (Z.min 2 (strings.len (name +:+ ": " +:+ value) + 1) - 1))
    with 1%nat
    by (unfold strings.len; rewrite !length_append; simpl; lia).
  cbn [strings.genSplit_loop]. rewrite Hidx.
  destruct (strings.len name <? 0) eqn:E;
    [apply Z.ltb_lt in E; unfold strings.len in E; lia|].
  rewrite slice_to_append.
  replace (strings.len name + strings.len ": ")
    with (strings.len (name +:+ ": "))
    by (unfold strings.len; rewrite length_append; lia).
  rewrite <- append_assoc_s, slice_from_append. reflexivity.
Qed.

(** A declaration without a colon is passed over. *)
Lemma parseHeaders_loop_no_colon (headers : gmap string string)
    (junk : string) (rest : list string) :
  strings.Contains junk ":" = false ->
  parseHeaders_loop headers (junk :: rest) = parseHeaders_loop headers rest.
Proof.
  intros Hc. cbn [parseHeaders_loop].
  pose proof (Contains_shorter junk ":" " " Hc) as Hcs.
  change (":" +:+ " ") with ": " in Hcs. rewrite Hcs, Hc. reflexivity.
Qed.

Lemma declaration_has_colon (name value : string) :
  strings.Contains name ": " = false ->
  name +:+ ": " +:+ value <> EmptyString
  /\ strings.Contains (name +:+ ": " +:+ value) ":" = true.
Proof.
  intros Hname. split.
  - destruct name; discriminate.
  - unfold strings.Contains. apply Z.leb_le.
    apply (Index_shorter _ ":" " "). change (":" +:+ " ") with ": ".
    rewrite (Index_colon_space _ _ Hname). unfold strings.len. lia.
Qed.

(** X1. [parseHeaders] never panics, and it fails in one case only: it
    returns the MalformedHeaders error and no map when the string is not
    empty and holds no colon; in every other case it returns a map and no
    error. *)
Theorem parseHeaders_fails_only_without_colon (rawHeaders : string) :
  (rawHeaders <> EmptyString
   /\ strings.Contains rawHeaders ":" = false
   /\ parseHeaders rawHeaders = Returns (None, Some MalformedHeaders))
  \/ ((rawHeaders = EmptyString \/ strings.Contains rawHeaders ":" = true)
      /\ exists headers, parseHeaders rawHeaders = Returns (Some headers, None)).
Proof.
  destruct (String.eqb_spec rawHeaders EmptyString) as [->|Hne].
  - right. split; [left; reflexivity|]. exists ∅. reflexivity.
  - destruct (strings.Contains rawHeaders ":") eqn:Hc.
    + right. split; [right; reflexivity|].
      rewrite (parseHeaders_with_colon _ Hne Hc).
      destruct (parseHeaders_loop_returns (strings.Split rawHeaders ";;") ∅) as [m ->].
      exists m. reflexivity.
    + left. repeat split; [exact Hne|]. apply parseHeaders_no_colon; assumption.
Qed.

(** X2. One declaration [name: value] gives the one-entry map from the
    trimmed name to the trimmed value.  The cut is at the first [": "]:
    the value may hold colons and [": "], and the name may hold colons that
    no space follows. *)
Theorem parseHeaders_one_declaration (name value : string) :
  strings.Contains name ": " = false ->
  strings.Contains (name +:+ ": " +:+ value) ";;" = false ->
  parseHeaders (name +:+ ": " +:+ value)
  = Returns (Some {[strings.TrimSpace name := strings.TrimSpace value]}, None).
Proof.
  intros Hname Hsemi.
  destruct (declaration_has_colon name value Hname) as [Hne Hc].
  rewrite (parseHeaders_with_colon _ Hne Hc), (Split_one_piece _ _ Hsemi).
  rewrite (parseHeaders_loop_declaration _ _ _ _ Hname). simpl.
  rewrite insert_empty. reflexivity.
Qed.

Lemma parseHeaders_one_declaration_witness :
  strings.Contains "X-Range:bytes" ": " = false
  /\ strings.Contains ("X-Range:bytes" +:+ ": " +:+ " 0-5: all ") ";;" = false
  /\ parseHeaders ("X-Range:bytes" +:+ ": " +:+ " 0-5: all ")
     = Returns (Some {[strings.TrimSpace "X-Range:bytes"
                         := strings.TrimSpace " 0-5: all "]}, None).
Proof.
  assert (H1 : strings.Contains "X-Range:bytes" ": " = false) by reflexivity.
  assert (H2 : strings.Contains ("X-Range:bytes" +:+ ": " +:+ " 0-5: all ") ";;"
               = false) by reflexivity.
  split; [exact H1|]. split; [exact H2|].
  exact (parseHeaders_one_declaration "X-Range:bytes" " 0-5: all " H1 H2).
Defined.

Lemma Index_append_r (a b sub : string) :
  0 <= strings.Index b sub -> 0 <= strings.Index (a +:+ b) sub.
Proof.
  intros Hb. induction a as [|d a IH]; [exact Hb|].
  rewrite append_cons, Index_unfold.
  destruct (strings.HasPrefix (String d (a +:+ b)) sub); [lia|]. cbv zeta.
  destruct (strings.Index (a +:+ b) sub <? 0) eqn:E; [apply Z.ltb_lt in E; lia|].
  apply Z.ltb_ge in E. lia.
Qed.

Lemma Contains_append_r (a b sub : string) :
  strings.Contains b sub = true -> strings.Contains (a +:+ b) sub = true.
Proof.
  unfold strings.Contains. intros Hb. apply Z.leb_le in Hb. apply Z.leb_le.
  apply Index_append_r, Hb.
Qed.

(** Two declarations, the first without a semicolon. *)
Lemma Split_two_pieces (a b : string) :
  lacks ";" a ->
  strings.Contains b ";;" = false ->
  strings.Split (a +:+ ";;" +:+ b) ";;" = [a; b].
Proof.
  intros Ha Hb. unfold strings.Split.
  destruct (String.length (a +:+ ";;" +:+ b)) as [|n] eqn:Hlen.
  - rewrite !length_append in Hlen. simpl in Hlen. lia.
  - rewrite (genSplit_loop_cut n ";" ";" a b Ha).
    rewrite (genSplit_loop_no_sep _ _ _ Hb). reflexivity.
Qed.

(** X3. A declaration without a colon does not abort the parse: it is
    passed over, and the declarations beside it are kept. *)
Theorem parseHeaders_skips_declaration_without_colon (junk name value : string) :
  strings.Contains junk ":" = false ->
  lacks ";" junk ->
  strings.Contains name ": " = false ->
  strings.Contains (name +:+ ": " +:+ value) ";;" = false ->
  parseHeaders (junk +:+ ";;" +:+ name +:+ ": " +:+ value)
  = Returns (Some {[strings.TrimSpace name := strings.TrimSpace value]}, None).
Proof.
  intros Hjunk Hsemi Hname Hdecl.
  destruct (declaration_has_colon name value Hname) as [_ Hc].
  assert (Hne : junk +:+ ";;" +:+ name +:+ ": " +:+ value <> EmptyString)
    by (destruct junk; discriminate).
  assert (Hc' : strings.Contains (junk +:+ ";;" +:+ name +:+ ": " +:+ value) ":"
                = true).
  { apply Contains_append_r. apply (Contains_append_r ";;"). exact Hc. }
  rewrite (parseHeaders_with_colon _ Hne Hc'), (Split_two_pieces _ _ Hsemi Hdecl).
  rewrite (parseHeaders_loop_no_colon _ _ _ Hjunk).
  rewrite (parseHeaders_loop_declaration _ _ _ _ Hname). simpl.
  rewrite insert_empty. reflexivity.
Qed.

Lemma parseHeaders_skips_declaration_without_colon_witness :
  strings.Contains "badheader" ":" = false
  /\ lacks ";" "badheader"
  /\ strings.Contains "Cookie" ": " = false
  /\ strings.Contains ("Cookie" +:+ ": " +:+ "a=b") ";;" = false
  /\ parseHeaders ("badheader" +:+ ";;" +:+ "Cookie" +:+ ": " +:+ "a=b")
     = Returns (Some {[strings.TrimSpace "Cookie" := strings.TrimSpace "a=b"]}, None).
Proof.
  assert (H1 : strings.Contains "badheader" ":" = false) by reflexivity.
  assert (H2 : lacks ";" "badheader") by reflexivity.
  assert (H3 : strings.Contains "Cookie" ": " = false) by reflexivity.
  assert (H4 : strings.Contains ("Cookie" +:+ ": " +:+ "a=b") ";;" = false)
    by reflexivity.
  split; [exact H1|]. split; [exact H2|]. split; [exact H3|]. split; [exact H4|].
  exact (parseHeaders_skips_declaration_without_colon _ _ _ H1 H2 H3 H4).
Defined.

(** X4. When a name is declared twice, the later declaration wins. *)
Theorem parseHeaders_later_declaration_wins (name value1 value2 : string) :
  strings.Contains name ": " = false ->
  lacks ";" (name +:+ ": " +:+ value1) ->
  strings.Contains (name +:+ ": " +:+ value2) ";;" = false ->
  parseHeaders ((name +:+ ": " +:+ value1) +:+ ";;" +:+ name +:+ ": " +:+ value2)
  = Returns (Some {[strings.TrimSpace name := strings.TrimSpace value2]}, None).
Proof.
  intros Hname Hsemi Hdecl.
  destruct (declaration_has_colon name value2 Hname) as [_ Hc].
  assert (Hne : (name +:+ ": " +:+ value1) +:+ ";;" +:+ name +:+ ": " +:+ value2
                <> EmptyString)
    by (destruct name; discriminate).
  assert (Hc' : strings.Contains
                  ((name +:+ ": " +:+ value1) +:+ ";;" +:+ name +:+ ": " +:+ value2)
                  ":" = true).
  { apply Contains_append_r. apply (Contains_append_r ";;"). exact Hc. }
  rewrite (parseHeaders_with_colon _ Hne Hc'), (Split_two_pieces _ _ Hsemi Hdecl).
  rewrite !(parseHeaders_loop_declaration _ _ _ _ Hname). simpl.
  rewrite insert_insert_eq, insert_empty. reflexivity.
Qed.

Lemma parseHeaders_later_declaration_wins_witness :
  strings.Contains "Cookie" ": " = false
  /\ lacks ";" ("Cookie" +:+ ": " +:+ "a=b")
  /\ strings.Contains ("Cookie" +:+ ": " +:+ "c=d") ";;" = false
  /\ parseHeaders (("Cookie" +:+ ": " +:+ "a=b") +:+ ";;" +:+ "Cookie" +:+ ": " +:+ "c=d")
     = Returns (Some {[strings.TrimSpace "Cookie" := strings.TrimSpace "c=d"]}, None).
Proof.
  assert (H1 : strings.Contains "Cookie" ": " = false) by reflexivity.
  assert (H2 : lacks ";" ("Cookie" +:+ ": " +:+ "a=b")) by reflexivity.
  assert (H3 : strings.Contains ("Cookie" +:+ ": " +:+ "c=d") ";;" = false)
    by reflexivity.
  split; [exact H1|]. split; [exact H2|]. split; [exact H3|].
  exact (parseHeaders_later_declaration_wins _ _ _ H1 H2 H3).
Defined.

(** ** Scheme defaulting *)

(** X5. After the defaulting the URL always starts with [http], and
    defaulting it again changes nothing. *)
Theorem defaultScheme_starts_with_http (url : string) :
  strings.HasPrefix (defaultScheme url) "http" = true
  /\ defaultScheme (defaultScheme url) = defaultScheme url.
Proof.
  split; [|apply defaultScheme_idempotent].
  unfold defaultScheme. destruct (strings.HasPrefix url "http") eqn:E; cbn [negb].
  - exact E.
  - apply HasPrefix_http_added.
Qed.

(** ** [isUnique] when the callers do not interleave *)

(** Once the URL is in [sm], every caller that runs alone gets false. *)
Lemma isUnique_later_callers `{World} (c : Collector) (url : string) (v : bool)
    (st : crawl) (n : nat) :
  sm st !! url = Some v ->
  forall done : list (prog bool),
    interleave c (twoTurnsEach (length done) n)
      (done ++ replicate n (isUnique url)) st
    = (done ++ replicate n (Ret false), st).
Proof.
  intros Hin. induction n as [|n IH]; intros done.
  - reflexivity.
  - unfold twoTurnsEach. cbn [seq flat_map app replicate interleave].
    rewrite list_lookup_middle by reflexivity.
    cbn [isUnique do_step]. rewrite Hin.
    rewrite insert_app_r_alt by lia. rewrite Nat.sub_diag. cbn [insert list_insert].
    rewrite list_lookup_middle by reflexivity. cbn [do_step].
    rewrite insert_app_r_alt by lia. rewrite Nat.sub_diag. cbn [insert list_insert].
    specialize (IH (done ++ [Ret false])).
    rewrite length_app in IH. cbn [length] in IH.
    replace (length done + 1)%nat with (S (length done)) in IH by lia.
    rewrite <- !app_assoc in IH. exact IH.
Qed.

(** X6. Callers of [isUnique] that run one after the other, on an [sm]
    that lacks the URL: the first gets true, every later one gets false,
    and [sm] ends with the URL in it.  The test-and-set of the
    specification holds when no caller is interrupted. *)
Theorem isUnique_one_at_a_time `{World} (c : Collector) (url : string)
    (st : crawl) (n : nat) :
  sm st !! url = None ->
  interleave c (twoTurnsEach 0 (S n)) (replicate (S n) (isUnique url)) st
  = (Ret true :: replicate n (Ret false),
     mkCrawl (<[url := true]> (sm st)) (sent st) (results st) (visited st)
             (goroutines st)).
Proof.
  intros Hout. unfold twoTurnsEach.
  cbn [seq flat_map app replicate interleave lookup list_lookup].
  cbn [isUnique do_step]. rewrite Hout.
  cbn [insert list_insert lookup list_lookup do_step].
  apply (isUnique_later_callers c url true _ n (lookup_insert_eq _ _ _) [Ret true]).
Qed.

Lemma isUnique_one_at_a_time_witness :
  sm (crawl_start Scenario.fresh) !! "http://example.com/a" = None
  /\ interleave (H := Scenario.siteWorld) Collector_Init (twoTurnsEach 0 3)
       (replicate 3 (isUnique "http://example.com/a")) (crawl_start Scenario.fresh)
     = ([Ret true; Ret false; Ret false],
        mkCrawl (<["http://example.com/a" := true]> (sm (crawl_start Scenario.fresh)))
          (sent (crawl_start Scenario.fresh)) (results (crawl_start Scenario.fresh))
          (visited (crawl_start Scenario.fresh))
          (goroutines (crawl_start Scenario.fresh))).
Proof.
  assert (Hout : sm (crawl_start Scenario.fresh) !! "http://example.com/a" = None)
    by reflexivity.
  split; [exact Hout|].
  exact (isUnique_one_at_a_time (H := Scenario.siteWorld) Collector_Init
           "http://example.com/a" (crawl_start Scenario.fresh) 2 Hout).
Defined.

(** ** A goroutine that is not interrupted *)

Lemma exec_bind `{World} {A B} (c : Collector) (p : prog A) (f : A -> prog B) :
  forall st,
    exec c (pbind p f) st = exec c (f (fst (exec c p st))) (snd (exec c p st)).
Proof.
  induction p as [a|key k IH|key v k IH|s k IH|r u k IH|r k IH]; intros st; simpl;
    try reflexivity; apply IH.
Qed.

Lemma exec_appendResult_unique `{World} (c : Collector) (link : string)
    (e : HTMLElement) (st : crawl) :
  results_unique st -> results_unique (snd (exec c (appendResult link e) st)).
Proof.
  intros [Hnd Hsub]. unfold appendResult.
  destruct (negb (AbsoluteURL (elem_Request e) link =? EmptyString)%string);
    [|split; assumption].
  simpl. destruct (sm st !! AbsoluteURL (elem_Request e) link) as [v|] eqn:Hl; simpl.
  - split; assumption.
  - apply not_elem_of_dom in Hl. split.
    + apply NoDup_app. split; [exact Hnd|]. split; [|apply NoDup_singleton].
      intros s Hs Hs'. apply list_elem_of_singleton in Hs'. subst s.
      apply Hl, Hsub, Hs.
    + intros s Hs. cbn [sm results] in *. rewrite dom_insert_L.
      apply elem_of_app in Hs as [Hs|Hs].
      * specialize (Hsub s Hs). set_solver.
      * apply list_elem_of_singleton in Hs. set_solver.
Qed.

Lemma scrape_results_unique `{World} (c : Collector) (u : string) (depth : Z)
    (st : crawl) :
  results_unique st -> results_unique (scrape c u depth st).
Proof.
  intros Hst. destruct (scrape_cases c u depth st) as [->|[->|[u' ->]]]; exact Hst.
Qed.

Lemma exec_forEachElement_unique `{World} (c : Collector)
    (f : HTMLElement -> prog unit) (resp : Response) (nodes : list Node) :
  (forall e st, results_unique st -> results_unique (snd (exec c (f e) st))) ->
  forall st, results_unique st ->
    results_unique (snd (exec c (forEachElement f resp nodes) st)).
Proof.
  intros Hf. induction nodes as [|n rest IH]; intros st Hst; simpl; [exact Hst|].
  rewrite exec_bind. apply IH, Hf, Hst.
Qed.

Lemma exec_forEachCallback_unique `{World} (c : Collector)
    (callbacks : list (string * (HTMLElement -> prog unit))) (resp : Response) :
  Forall (fun cb => forall e st, results_unique st ->
                      results_unique (snd (exec c (snd cb e) st))) callbacks ->
  forall st, results_unique st ->
    results_unique (snd (exec c (forEachCallback callbacks resp) st)).
Proof.
  induction 1 as [|[sel f] rest Hf _ IH]; intros st Hst; simpl; [exact Hst|].
  rewrite exec_bind. apply IH, exec_forEachElement_unique; [exact Hf|exact Hst].
Qed.

(** X7. A goroutine of the crawl that runs from its request to its end
    without another goroutine in between keeps [results] free of
    duplicates (and within the keys of [sm]): the duplicates of C9 need
    two goroutines that take turns. *)
Theorem uninterrupted_fetch_keeps_results_unique `{World} (hostname : string)
    (threads depth : Z) (subsInScope insecure : bool)
    (headers : option (gmap string string)) (c : Collector)
    (u : string) (d : Z) (st : crawl) :
  newCrawler hostname threads depth subsInScope insecure headers = Returns c ->
  results_unique st ->
  results_unique (snd (exec c (fetch c u d) st)).
Proof.
  intros Hc Hst. apply newCrawler_fields in Hc as (_ & _ & Hcb & _).
  unfold fetch. cbn [exec do_step snd].
  set (st1 := mkCrawl _ _ _ _ _).
  assert (Hst1 : results_unique st1) by exact Hst.
  destruct (http_get (transport c) _) as [page|]; [|exact Hst1].
  unfold handleOnHTML. rewrite Hcb.
  apply exec_forEachCallback_unique; [|exact Hst1].
  repeat apply Forall_cons_2; try apply Forall_nil_2; cbn [snd]; intros e st' Hst'.
  - unfold onAnchor. rewrite exec_bind. cbn [exec do_step snd].
    apply scrape_results_unique, exec_appendResult_unique, Hst'.
  - apply exec_appendResult_unique, Hst'.
  - apply exec_appendResult_unique, Hst'.
Qed.

Lemma uninterrupted_fetch_keeps_results_unique_witness :
  newCrawler (H := Scenario.siteWorld) "example.com" 5 2 false false None
    = Returns (Scenario.value_of
                 (newCrawler (H := Scenario.siteWorld) "example.com" 5 2 false false None)
                 Collector_Init)
  /\ results_unique (crawl_start Scenario.fresh)
  /\ results_unique
       (snd (exec (H := Scenario.siteWorld)
               (Scenario.value_of
                  (newCrawler (H := Scenario.siteWorld) "example.com" 5 2 false false None)
                  Collector_Init)
               (fetch
                  (Scenario.value_of
                     (newCrawler (H := Scenario.siteWorld) "example.com" 5 2 false false None)
                     Collector_Init)
                  "http://example.com/a" 2)
               (crawl_start Scenario.fresh))).
Proof.
  assert (Hc : newCrawler (H := Scenario.siteWorld) "example.com" 5 2 false false None
    = Returns (Scenario.value_of
                 (newCrawler (H := Scenario.siteWorld) "example.com" 5 2 false false None)
                 Collector_Init)) by reflexivity.
  assert (Hst : results_unique (crawl_start Scenario.fresh)).
  { split; [apply NoDup_nil_2|]. intros s Hs. apply elem_of_nil in Hs. destruct Hs. }
  split; [exact Hc|]. split; [exact Hst|].
  exact (uninterrupted_fetch_keeps_results_unique (H := Scenario.siteWorld)
           _ _ _ _ _ _ _ _ _ _ Hc Hst).
Defined.

(** ** Every crawl, under every schedule *)

(** [u] has passed the URL filters of [c], if [c] has any. *)
Definition passes_filters (c : Collector) (u : string) : Prop :=
  ((0 <? Z.of_nat (length (URLFilters c)))
   && negb (isMatchingFilter (URLFilters c) u)) = false.

(** [parsedURL] is what [scrape] makes of [u]: [u] parsed, with scheme
    [http] when it has none. *)
Definition parses_to `{World} (u : string) (parsedURL : URL) : Prop :=
  exists p0 : URL,
    url_Parse u = inl p0
    /\ parsedURL = if String.eqb (URL_Scheme p0) EmptyString
                   then URL_setScheme p0 "http" else p0.

(** The ways [scrape] can end, with what the checks have found when it
    starts a goroutine. *)
Lemma scrape_cases_checked `{World} (c : Collector) (u : string) (depth : Z)
    (st : crawl) :
  scrape c u depth st = st
  \/ scrape c u depth st = mark_visited (fnv64a u) st
  \/ exists parsedURL : URL,
       ((0 <? MaxDepth c) && (MaxDepth c <? depth)) = false
       /\ isDomainAllowed c (URL_Host parsedURL) = true
       /\ passes_filters c u
       /\ parses_to u parsedURL
       /\ scrape c u depth st
          = spawn (fetch c (URL_String parsedURL) depth)
                  (mark_visited (fnv64a u) st).
Proof.
  unfold scrape.
  destruct (u =? EmptyString)%string; [left; reflexivity|].
  destruct ((0 <? MaxDepth c) && (MaxDepth c <? depth)) eqn:Hdepth;
    [left; reflexivity|].
  destruct ((0 <? Z.of_nat (length (URLFilters c)))
            && negb (isMatchingFilter (URLFilters c) u)) eqn:Hfilters;
    [left; reflexivity|].
  destruct (decide (fnv64a u ∈ visited st)); [left; reflexivity|].
  destruct (url_Parse u) as [parsedURL|err] eqn:Hparse; [|right; left; reflexivity].
  cbv zeta.
  destruct (isDomainAllowed c (URL_Host _)) eqn:Hdom;
    [|right; left; reflexivity].
  right. right. eexists. split; [reflexivity|]. split; [exact Hdom|].
  split; [exact Hfilters|]. split; [|reflexivity].
  exists parsedURL. split; [exact Hparse|reflexivity].
Qed.

(** [page_prog t r0 p]: [p] works on the page of [r0]: it sends nothing,
    its [Visit]s come from requests of the depth of [r0], and what it
    appends to [results] is a non-empty link on that page. *)
Fixpoint page_prog `{World} {A} (t : Transport) (r0 : Request) (p : prog A) : Prop :=
  match p with
  | Ret _ => True
  | sm_Load _ k => forall v, page_prog t r0 (k v)
  | sm_Store _ _ k => page_prog t r0 k
  | results_append s k =>
      (s <> EmptyString /\ discoverable t r0 s) /\ page_prog t r0 k
  | Request_Visit r _ k => req_Depth r = req_Depth r0 /\ page_prog t r0 k
  | backend_Do _ _ => False
  end.

Lemma page_prog_bind `{World} {A B} (t : Transport) (r0 : Request)
    (p : prog A) (f : A -> prog B) :
  page_prog t r0 p -> (forall a, page_prog t r0 (f a)) -> page_prog t r0 (pbind p f).
Proof.
  intros Hp Hf.
  induction p as [a|key k IH|key v k IH|s k IH|r u k IH|r k IH]; simpl in *.
  - apply Hf.
  - intros v. apply IH, Hp.
  - apply IH, Hp.
  - destruct Hp as [Hs Hk]. split; [exact Hs|apply IH, Hk].
  - destruct Hp as [Hd Hk]. split; [exact Hd|apply IH, Hk].
  - destruct Hp.
Qed.

Section OnePage.

Context `{World}.
Variable t : Transport.
Variable r0 : Request.
Variable page : string * list Node.
Hypothesis page_given : http_get t r0 = Some page.

Lemma setBaseURL_depth (resp : Response) :
  req_Depth (resp_Request (setBaseURL resp)) = req_Depth (resp_Request resp).
Proof.
  unfold setBaseURL. destruct (doc_Find (resp_doc resp) "base[href]"); reflexivity.
Qed.

Lemma appendResult_page_prog (sel attr : string) (n : Node) :
  In (sel, attr)
     [("a[href]", "href"); ("script[src]", "src"); ("form[action]", "action")] ->
  In n (doc_Find (resp_doc (setBaseURL (received r0 page))) sel) ->
  page_prog t r0
    (appendResult (attr_lookup (node_Attr n) attr)
       (mkHTMLElement (node_Data n) (node_Attr n)
          (resp_Request (setBaseURL (received r0 page)))
          (setBaseURL (received r0 page)))).
Proof.
  intros Hsel Hn. unfold appendResult. cbn [elem_Request].
  destruct (String.eqb_spec
              (AbsoluteURL (resp_Request (setBaseURL (received r0 page)))
                 (attr_lookup (node_Attr n) attr)) EmptyString) as [_|Hne];
    [exact I|].
  simpl. intros [v|]; simpl; [exact I|].
  split; [|exact I]. split; [exact Hne|].
  exists page. split; [exact page_given|].
  apply (page_links_intro _ sel attr n Hsel Hn).
Qed.

Lemma forEachElement_page_prog (f : HTMLElement -> prog unit) (sel : string)
    (nodes : list Node) :
  (forall n, In n (doc_Find (resp_doc (setBaseURL (received r0 page))) sel) ->
     page_prog t r0
       (f (mkHTMLElement (node_Data n) (node_Attr n)
             (resp_Request (setBaseURL (received r0 page)))
             (setBaseURL (received r0 page))))) ->
  (forall n, In n nodes ->
     In n (doc_Find (resp_doc (setBaseURL (received r0 page))) sel)) ->
  page_prog t r0 (forEachElement f (setBaseURL (received r0 page)) nodes).
Proof.
  intros Hf. induction nodes as [|n rest IH]; intros Hsub; simpl; [exact I|].
  apply page_prog_bind.
  - apply Hf, Hsub. left. reflexivity.
  - intros _. apply IH. intros m Hm. apply Hsub. right. exact Hm.
Qed.

Lemma callbacks_page_prog :
  page_prog t r0
    (forEachCallback
       [("a[href]", onAnchor); ("script[src]", onScript); ("form[action]", onForm)]
       (setBaseURL (received r0 page))).
Proof.
  simpl. apply page_prog_bind; [|intros _; apply page_prog_bind;
                                   [|intros _; apply page_prog_bind; [|intros _; exact I]]].
  - apply (forEachElement_page_prog onAnchor "a[href]"); [|auto].
    intros n Hn. unfold onAnchor. apply page_prog_bind.
    + apply (appendResult_page_prog "a[href]" "href" n); [simpl; auto|exact Hn].
    + intros _. simpl. split; [|exact I]. cbn [elem_Request].
      rewrite setBaseURL_depth. reflexivity.
  - apply (forEachElement_page_prog onScript "script[src]"); [|auto].
    intros n Hn.
    apply (appendResult_page_prog "script[src]" "src" n); [simpl; auto|exact Hn].
  - apply (forEachElement_page_prog onForm "form[action]"); [|auto].
    intros n Hn.
    apply (appendResult_page_prog "form[action]" "action" n); [simpl; auto|exact Hn].
Qed.

End OnePage.

Section CrawlInvariant.

Context `{World}.
Variable c : Collector.
Hypothesis c_htmlCallbacks :
  htmlCallbacks c
  = [("a[href]", onAnchor); ("script[src]", onScript); ("form[action]", onForm)].
Hypothesis c_keeps_depth :
  forall r, req_Depth (handleOnRequest c r) = req_Depth r.

(** [Q u d]: what is known of every fetch the collector starts, for URL
    [u] at depth [d]; [scrape] must establish it, for the seed (depth 1)
    and for a link found on a page of a fetch that had it. *)
Variable Q : string -> Z -> Prop.
Hypothesis Q_scrape :
  forall u depth (parsedURL : URL),
    ((0 <? MaxDepth c) && (MaxDepth c <? depth)) = false ->
    isDomainAllowed c (URL_Host parsedURL) = true ->
    passes_filters c u ->
    parses_to u parsedURL ->
    (depth = 1 \/ exists u0 d0, Q u0 d0 /\ depth = int (d0 + 1)) ->
    Q (URL_String parsedURL) depth.
Variable sent0 : list Request.

Definition started (r : Request) : Prop :=
  exists u d, Q u d /\ r = handleOnRequest c (newRequest c u d).

Definition goroutine_ok (new : list Request) (p : prog unit) : Prop :=
  (exists u d, Q u d /\ p = fetch c u d)
  \/ (exists r0, r0 ∈ new /\ page_prog (transport c) r0 p).

Definition result_ok (new : list Request) (s : string) : Prop :=
  s <> EmptyString /\ exists r, r ∈ new /\ discoverable (transport c) r s.

Definition crawl_inv (st : crawl) : Prop :=
  exists new,
    sent st = sent0 ++ new
    /\ Forall started new
    /\ Forall (result_ok new) (results st)
    /\ Forall (goroutine_ok new) (goroutines st).

Lemma goroutine_ok_more (new : list Request) (r : Request) (p : prog unit) :
  goroutine_ok new p -> goroutine_ok (new ++ [r]) p.
Proof.
  intros [Hp|(r0 & Hin & Hp)]; [left; exact Hp|].
  right. exists r0. split; [|exact Hp]. apply elem_of_app. left. exact Hin.
Qed.

Lemma result_ok_more (new : list Request) (r : Request) (s : string) :
  result_ok new s -> result_ok (new ++ [r]) s.
Proof.
  intros (Hne & r0 & Hin & Hd). split; [exact Hne|].
  exists r0. split; [|exact Hd]. apply elem_of_app. left. exact Hin.
Qed.

Lemma scrape_crawl_inv (u : string) (depth : Z) (st : crawl) :
  (depth = 1 \/ exists u0 d0, Q u0 d0 /\ depth = int (d0 + 1)) ->
  crawl_inv st -> crawl_inv (scrape c u depth st).
Proof.
  intros Hdepth (new & Hsent & Hnew & Hres & Hpool).
  destruct (scrape_cases_checked c u depth st)
    as [->|[->|(parsedURL & Hmax & Hdom & Hfilters & Hparse & ->)]].
  - exists new. repeat split; assumption.
  - exists new. repeat split; assumption.
  - exists new. split; [exact Hsent|]. split; [exact Hnew|]. split; [exact Hres|].
    simpl. apply Forall_app. split; [exact Hpool|]. apply Forall_singleton.
    left. exists (URL_String parsedURL), depth. split; [|reflexivity].
    apply (Q_scrape u); assumption.
Qed.

Lemma sched_step_crawl_inv (i : nat) (st : crawl) :
  crawl_inv st -> crawl_inv (sched_step c i st).
Proof.
  intros Hinv. unfold sched_step.
  destruct (goroutines st !! i) as [p|] eqn:Hp; [|exact Hinv].
  pose proof Hinv as (new & Hsent & Hnew & Hres & Hpool).
  destruct (Forall_lookup_1 _ _ _ _ Hpool Hp)
    as [(u & d & HQ & ->)|(r0 & Hr0 & Hok)].
  - (* the goroutine sends its request *)
    unfold fetch. cbn [do_step].
    exists (new ++ [handleOnRequest c (newRequest c u d)]).
    split; [simpl; rewrite Hsent, app_assoc; reflexivity|].
    split; [apply Forall_app; split; [exact Hnew|]; apply Forall_singleton;
            exists u, d; split; [exact HQ|reflexivity]|].
    split; [eapply Forall_impl; [exact Hres|]; intros s; apply result_ok_more|].
    simpl. apply Forall_insert.
    + eapply Forall_impl; [exact Hpool|]. intros q. apply goroutine_ok_more.
    + right. exists (handleOnRequest c (newRequest c u d)).
      split; [apply elem_of_app; right; apply list_elem_of_singleton; reflexivity|].
      destruct (http_get (transport c) (handleOnRequest c (newRequest c u d)))
        as [page|] eqn:Hpage; [|exact I].
      unfold handleOnHTML. rewrite c_htmlCallbacks.
      apply (callbacks_page_prog _ _ page Hpage).
  - (* the goroutine works on its page *)
    destruct p as [a|key k|key v k|s k|r u k|r k]; cbn [do_step]; simpl in Hok.
    + exists new. repeat split; try assumption. simpl.
      apply Forall_insert; [exact Hpool|]. right. exists r0. split; [exact Hr0|exact I].
    + exists new. repeat split; try assumption. simpl.
      apply Forall_insert; [exact Hpool|]. right. exists r0. split; [exact Hr0|apply Hok].
    + exists new. repeat split; try assumption. simpl.
      apply Forall_insert; [exact Hpool|]. right. exists r0. split; [exact Hr0|exact Hok].
    + destruct Hok as [[Hne Hdisc] Hk].
      exists new. split; [exact Hsent|]. split; [exact Hnew|]. split.
      * simpl. apply Forall_app. split; [exact Hres|]. apply Forall_singleton.
        split; [exact Hne|]. exists r0. split; assumption.
      * simpl. apply Forall_insert; [exact Hpool|].
        right. exists r0. split; [exact Hr0|exact Hk].
    + destruct Hok as [Hdepth Hk].
      assert (Hfrom : int (req_Depth r + 1) = 1
                      \/ exists u0 d0, Q u0 d0 /\ int (req_Depth r + 1) = int (d0 + 1)).
      { right. rewrite Forall_forall in Hnew.
        destruct (Hnew r0 Hr0) as (u0 & d0 & HQ & ->).
        exists u0, d0. split; [exact HQ|].
        rewrite Hdepth, c_keeps_depth. reflexivity. }
      destruct (scrape_crawl_inv (AbsoluteURL r u) (int (req_Depth r + 1)) st Hfrom Hinv)
        as (new' & Hsent' & Hnew' & Hres' & Hpool').
      assert (Hsame : sent (scrape c (AbsoluteURL r u) (int (req_Depth r + 1)) st)
                      = sent st).
      { destruct (scrape_cases c (AbsoluteURL r u) (int (req_Depth r + 1)) st)
          as [->|[->|[u' ->]]]; reflexivity. }
      assert (new' = new).
      { rewrite Hsame, Hsent in Hsent'. apply app_inv_head in Hsent'. congruence. }
      subst new'.
      exists new. split; [simpl; rewrite Hsame; exact Hsent|].
      split; [exact Hnew|]. split; [exact Hres'|].
      simpl. apply Forall_insert; [exact Hpool'|].
      right. exists r0. split; [exact Hr0|exact Hk].
    + destruct Hok.
Qed.

Lemma run_crawl_inv (schedule : list nat) :
  forall st, crawl_inv st -> crawl_inv (run c schedule st).
Proof.
  induction schedule as [|i schedule IH]; intros st Hinv; simpl.
  - exact Hinv.
  - apply IH, sched_step_crawl_inv, Hinv.
Qed.

(** The invariant holds from [c.Visit(url)] on. *)
Lemma crawl_inv_from_Visit (schedule : list nat) (url : string) (proc : process) :
  sent0 = proc_sent proc ->
  crawl_inv (run c schedule (Visit c url (crawl_start proc))).
Proof.
  intros Hs. apply run_crawl_inv. unfold Visit. apply scrape_crawl_inv.
  - left. reflexivity.
  - exists []. simpl. rewrite app_nil_r.
    split; [symmetry; exact Hs|]. repeat split; apply Forall_nil_2.
Qed.

End CrawlInvariant.

Lemma newCrawler_details `{World} (hostname : string) (threads depth : Z)
    (subsInScope insecure : bool) (headers : option (gmap string string))
    (c : Collector) :
  newCrawler hostname threads depth subsInScope insecure headers = Returns c ->
  UserAgent c = crawlerUserAgent
  /\ AllowedDomains c = (if subsInScope then [] else [hostname])
  /\ forall r, handleOnRequest c r
               = match headers with Some h => setHeaders h r | None => r end.
Proof.
  unfold newCrawler. destruct subsInScope.
  - destruct (regexp.MustCompile (subsPattern hostname)); simpl; try discriminate.
    intros [= <-]. destruct headers; repeat split.
  - simpl. intros [= <-]. destruct headers; repeat split.
Qed.

(** How [StartCrawler] returns: at once, on a seed that does not parse; or
    with the state of a finished run of the collector it has built. *)
Lemma StartCrawler_returns_run `{World} (schedule : list nat) (url : string)
    (threads depth : Z) (subsInScope insecure : bool) (rawHeaders : string)
    (proc : process) (res : list string) (proc' : process) :
  StartCrawler schedule url threads depth subsInScope insecure rawHeaders proc
    = Returns (res, proc') ->
  (res = [] /\ proc' = proc)
  \/ exists hostname parsed c,
       extractHostname (defaultScheme url) = (hostname, None)
       /\ parseHeaders rawHeaders = Returns parsed
       /\ newCrawler hostname threads depth subsInScope insecure (fst parsed)
          = Returns c
       /\ res = results (run c schedule (Visit c (defaultScheme url) (crawl_start proc)))
       /\ proc' = mkProcess
            (sm (run c schedule (Visit c (defaultScheme url) (crawl_start proc))))
            (sent (run c schedule (Visit c (defaultScheme url) (crawl_start proc)))).
Proof.
  unfold StartCrawler.
  destruct (parseHeaders_returns rawHeaders) as [parsed Hparsed].
  rewrite Hparsed. cbn [obind].
  destruct (extractHostname (defaultScheme url)) as [hostname [err|]].
  - intros [= <- <-]. left. split; reflexivity.
  - destruct (newCrawler hostname threads depth subsInScope insecure (fst parsed))
      as [c| | |] eqn:Hc; cbn [obind]; try discriminate.
    destruct (finished _); [|discriminate].
    intros [= <- <-]. right. exists hostname, parsed, c.
    split; [reflexivity|]. split; [reflexivity|]. split; [exact Hc|].
    split; reflexivity.
Qed.

Lemma newCrawler_keeps_url `{World} (hostname : string) (threads depth : Z)
    (subsInScope insecure : bool) (headers : option (gmap string string))
    (c : Collector) :
  newCrawler hostname threads depth subsInScope insecure headers = Returns c ->
  forall r, req_URL (handleOnRequest c r) = req_URL r.
Proof.
  intros Hc r. apply newCrawler_details in Hc as (_ & _ & Hreq).
  rewrite Hreq. destruct headers; reflexivity.
Qed.



Lemma int_small (z : Z) : - 2 ^ 63 <= z < 2 ^ 63 -> int z = z.
Proof. intros Hz. unfold int. rewrite Z.mod_small; lia. Qed.

(** X9. The depth cap: with a depth from 1 up to the largest [int] but
    one, every request a crawl sends has a depth between 1 (the seed) and
    that depth, whatever the schedule. *)
Theorem requests_within_depth `{World} (schedule : list nat)
    (url : string) (threads depth : Z) (subsInScope insecure : bool)
    (rawHeaders : string) (proc : process) (res : list string) (proc' : process) :
  0 < depth < 2 ^ 63 - 1 ->
  StartCrawler schedule url threads depth subsInScope insecure rawHeaders proc
    = Returns (res, proc') ->
  exists new,
    proc_sent proc' = proc_sent proc ++ new
    /\ forall r, r ∈ new -> 1 <= req_Depth r <= depth.
Proof.
  intros Hrange Hret. apply StartCrawler_returns_run in Hret.
  destruct Hret as [[-> ->]|(hostname & parsed & c & _ & _ & Hc & -> & ->)].
  - exists []. rewrite app_nil_r. split; [reflexivity|].
    intros r Hr. apply elem_of_nil in Hr. destruct Hr.
  - pose proof (newCrawler_fields _ _ _ _ _ _ _ Hc) as (Hmax & _ & Hcb & _).
    pose proof (newCrawler_keeps_depth _ _ _ _ _ _ _ Hc) as Hdepth.
    assert (HQ : forall (u : string) d (parsedURL : URL),
      ((0 <? MaxDepth c) && (MaxDepth c <? d)) = false ->
      isDomainAllowed c (URL_Host parsedURL) = true ->
      passes_filters c u ->
      parses_to u parsedURL ->
      (d = 1 \/ exists (u0 : string) d0, (1 <= d0 <= depth) /\ d = int (d0 + 1)) ->
      1 <= d <= depth).
    { intros u d parsedURL Hcheck _ _ _ Hfrom. rewrite Hmax in Hcheck.
      apply andb_false_iff in Hcheck as [Hcheck|Hcheck];
        [apply Z.ltb_ge in Hcheck; lia|apply Z.ltb_ge in Hcheck].
      destruct Hfrom as [->|(_ & d0 & Hd0 & ->)]; [lia|].
      rewrite int_small in Hcheck |- * by lia. lia. }
    destruct (crawl_inv_from_Visit c Hcb Hdepth (fun _ d => 1 <= d <= depth)
                HQ (proc_sent proc) schedule (defaultScheme url) proc eq_refl)
      as (new & Hsent & Hnew & _ & _).
    exists new. split; [exact Hsent|]. intros r Hr.
    rewrite Forall_forall in Hnew. destruct (Hnew r Hr) as (u & d & Hd & ->).
    rewrite Hdepth. exact Hd.
Qed.

Lemma requests_within_depth_witness :
  0 < 2 < 2 ^ 63 - 1
  /\ StartCrawler (H := Scenario.siteWorld) (Scenario.oneByOne 12) Scenario.front
       5 2 false false EmptyString Scenario.fresh
     = Returns (["http://example.com/a"; "http://example.com/b";
                 "http://example.com/c"], Scenario.afterFirst)
  /\ exists new,
       proc_sent Scenario.afterFirst = proc_sent Scenario.fresh ++ new
       /\ forall r, r ∈ new -> 1 <= req_Depth r <= 2.
Proof.
  assert (Hrange : 0 < 2 < 2 ^ 63 - 1) by (vm_compute; split; reflexivity).
  assert (Hret : StartCrawler (H := Scenario.siteWorld) (Scenario.oneByOne 12)
      Scenario.front 5 2 false false EmptyString Scenario.fresh
    = Returns (["http://example.com/a"; "http://example.com/b";
                "http://example.com/c"], Scenario.afterFirst))
    by (vm_compute; reflexivity).
  split; [exact Hrange|]. split; [exact Hret|].
  exact (requests_within_depth (H := Scenario.siteWorld)
           _ _ _ _ _ _ _ _ _ _ Hrange Hret).
Defined.

(** X10. Scope without [subsInScope]: every request a crawl sends goes to
    a URL whose host is the hostname extracted from the seed, whatever
    the schedule; a link to another host is never fetched. *)
Theorem requests_stay_on_seed_host `{World} (schedule : list nat)
    (url : string) (threads depth : Z) (insecure : bool)
    (rawHeaders : string) (proc : process) (res : list string) (proc' : process)
    (hostname : string) :
  extractHostname (defaultScheme url) = (hostname, None) ->
  StartCrawler schedule url threads depth false insecure rawHeaders proc
    = Returns (res, proc') ->
  exists new,
    proc_sent proc' = proc_sent proc ++ new
    /\ forall r, r ∈ new ->
         exists parsedURL : URL,
           req_URL r = URL_String parsedURL /\ URL_Host parsedURL = hostname.
Proof.
  intros Hhost Hret. apply StartCrawler_returns_run in Hret.
  destruct Hret as [[-> ->]|(hostname' & parsed & c & Hhost' & _ & Hc & -> & ->)].
  - exists []. rewrite app_nil_r. split; [reflexivity|].
    intros r Hr. apply elem_of_nil in Hr. destruct Hr.
  - rewrite Hhost in Hhost'. injection Hhost' as <-.
    pose proof (newCrawler_fields _ _ _ _ _ _ _ Hc) as (_ & _ & Hcb & _).
    pose proof (newCrawler_keeps_depth _ _ _ _ _ _ _ Hc) as Hdepth.
    pose proof (newCrawler_keeps_url _ _ _ _ _ _ _ Hc) as Hurl.
    pose proof (newCrawler_details _ _ _ _ _ _ _ Hc) as (_ & Hdomains & _).
    assert (HQ : forall (u : string) d (parsedURL : URL),
      ((0 <? MaxDepth c) && (MaxDepth c <? d)) = false ->
      isDomainAllowed c (URL_Host parsedURL) = true ->
      passes_filters c u ->
      parses_to u parsedURL ->
      (d = 1 \/ exists (u0 : string) (d0 : Z),
                  (exists p : URL, u0 = URL_String p /\ URL_Host p = hostname)
                  /\ d = int (d0 + 1)) ->
      exists p : URL, URL_String parsedURL = URL_String p /\ URL_Host p = hostname).
    { intros u d parsedURL _ Hallowed _ _ _. exists parsedURL. split; [reflexivity|].
      unfold isDomainAllowed in Hallowed. rewrite Hdomains in Hallowed.
      simpl in Hallowed. rewrite orb_false_r in Hallowed.
      apply String.eqb_eq in Hallowed. exact Hallowed. }
    destruct (crawl_inv_from_Visit c Hcb Hdepth
                (fun u _ => exists p : URL, u = URL_String p /\ URL_Host p = hostname)
                HQ (proc_sent proc) schedule (defaultScheme url) proc eq_refl)
      as (new & Hsent & Hnew & _ & _).
    exists new. split; [exact Hsent|]. intros r Hr.
    rewrite Forall_forall in Hnew. destruct (Hnew r Hr) as (u & d & Hp & ->).
    rewrite Hurl. exact Hp.
Qed.

Lemma requests_stay_on_seed_host_witness :
  extractHostname (H := Scenario.siteWorld) (defaultScheme "example.com/subs")
    = ("example.com", None)
  /\ StartCrawler (H := Scenario.siteWorld) (Scenario.oneByOne 20) "example.com/subs"
       5 2 false false EmptyString Scenario.fresh
     = Returns (["http://api.example.com/y"; "http://notexample.com/z";
                 "http://example.com.evil.com/"],
                snd (Scenario.value_of scopedCrawl ([], Scenario.fresh)))
  /\ exists new,
       proc_sent (snd (Scenario.value_of scopedCrawl ([], Scenario.fresh)))
         = proc_sent Scenario.fresh ++ new
       /\ forall r, r ∈ new ->
            exists parsedURL : Scenario.SimpleURL,
              req_URL r = Scenario.toString parsedURL
              /\ Scenario.u_Host parsedURL = "example.com".
Proof.
  assert (Hhost : extractHostname (H := Scenario.siteWorld)
                    (defaultScheme "example.com/subs") = ("example.com", None))
    by reflexivity.
  assert (Hret : StartCrawler (H := Scenario.siteWorld) (Scenario.oneByOne 20)
      "example.com/subs" 5 2 false false EmptyString Scenario.fresh
    = Returns (["http://api.example.com/y"; "http://notexample.com/z";
                "http://example.com.evil.com/"],
               snd (Scenario.value_of scopedCrawl ([], Scenario.fresh))))
    by (vm_compute; reflexivity).
  split; [exact Hhost|]. split; [exact Hret|].
  exact (requests_stay_on_seed_host (H := Scenario.siteWorld)
           _ _ _ _ _ _ _ _ _ _ Hhost Hret).
Defined.



(** ** The loop of [main] *)

Lemma main_loop_dedup `{World} (threads depth : Z) (insecure subsInScope : bool)
    (rawHeaders : string) (lines : list (list nat * string)) :
  forall (proc : process) (out : list string) (proc' : process),
    main_loop threads depth insecure subsInScope rawHeaders lines proc
      = Returns (out, proc') ->
    dom (proc_sm proc) ⊆ dom (proc_sm proc')
    /\ forall s, s ∈ out -> s ∉ dom (proc_sm proc).
Proof.
  induction lines as [|[schedule url] rest IH]; intros proc out proc' Hret.
  - injection Hret as <- <-. split; [reflexivity|].
    intros s Hs. apply elem_of_nil in Hs. destruct Hs.
  - cbn [main_loop] in Hret.
    destruct (StartCrawler schedule url threads depth subsInScope insecure
                rawHeaders proc) as [[res1 proc1]| | |] eqn:H1;
      cbn [obind fst snd] in Hret; try discriminate.
    destruct (main_loop threads depth insecure subsInScope rawHeaders rest proc1)
      as [[out2 proc2]| | |] eqn:H2; cbn [obind fst snd] in Hret; try discriminate.
    injection Hret as <- <-.
    apply StartCrawler_dedup in H1 as [Hgrow1 Hres1].
    apply IH in H2 as [Hgrow2 Hout2].
    split; [set_solver|]. intros s Hs. apply elem_of_app in Hs as [Hs|Hs].
    + apply Hres1, Hs.
    + specialize (Hout2 s Hs). set_solver.
Qed.

(** X12. One run of [main]: what it prints for the first lines of its
    input and what it prints for the lines after them have no URL in
    common, whatever the seeds and the schedules; and the loop over all
    lines is the loop over the first ones followed, in the state they
    leave, by the loop over the others. *)
Theorem main_prints_no_url_for_two_lines `{World} (threads depth : Z)
    (insecure subsInScope : bool) (rawHeaders : string)
    (lines1 lines2 : list (list nat * string)) :
  forall (proc : process) (out : list string) (proc' : process),
    main_loop threads depth insecure subsInScope rawHeaders (lines1 ++ lines2) proc
      = Returns (out, proc') ->
    exists out1 proc1 out2,
      main_loop threads depth insecure subsInScope rawHeaders lines1 proc
        = Returns (out1, proc1)
      /\ main_loop threads depth insecure subsInScope rawHeaders lines2 proc1
         = Returns (out2, proc')
      /\ out = out1 ++ out2
      /\ forall u, u ∈ out1 -> u ∉ out2.
Proof.
  induction lines1 as [|[schedule url] rest IH]; intros proc out proc' Hret.
  - exists [], proc, out. split; [reflexivity|]. split; [exact Hret|].
    split; [reflexivity|]. intros u Hu. apply elem_of_nil in Hu. destruct Hu.
  - cbn [app main_loop] in Hret |- *.
    destruct (StartCrawler schedule url threads depth subsInScope insecure
                rawHeaders proc) as [[res1 proc1]| | |] eqn:H1;
      cbn [obind fst snd] in Hret |- *; try discriminate.
    destruct (main_loop threads depth insecure subsInScope rawHeaders
                (rest ++ lines2) proc1) as [[out' proc2]| | |] eqn:H2;
      cbn [obind fst snd] in Hret; try discriminate.
    injection Hret as <- <-.
    destruct (IH _ _ _ H2) as (out1 & procm & out2 & Hm1 & Hm2 & -> & Hdisj).
    exists (res1 ++ out1), procm, out2. rewrite Hm1. cbn [obind fst snd].
    split; [reflexivity|]. split; [exact Hm2|].
    split; [rewrite app_assoc; reflexivity|].
    intros u Hu Hu2. apply elem_of_app in Hu as [Hu|Hu]; [|exact (Hdisj u Hu Hu2)].
    apply StartCrawler_dedup in H1 as [_ Hres1]. destruct (Hres1 u Hu) as [Hin _].
    apply main_loop_dedup in Hm1 as [Hgrow _].
    apply main_loop_dedup in Hm2 as [_ Hout2].
    apply (Hout2 u Hu2). set_solver.
Qed.

Lemma main_prints_no_url_for_two_lines_witness :
  main_loop (H := Scenario.siteWorld) 5 2 false false EmptyString
      ([(Scenario.oneByOne 12, Scenario.front)]
       ++ [(Scenario.oneByOne 12, Scenario.front)]) Scenario.fresh
    = Returns (["http://example.com/a"; "http://example.com/b";
                "http://example.com/c"],
               snd (Scenario.value_of Scenario.secondCrawl ([], Scenario.fresh)))
  /\ exists out1 proc1 out2,
       main_loop (H := Scenario.siteWorld) 5 2 false false EmptyString
           [(Scenario.oneByOne 12, Scenario.front)] Scenario.fresh
         = Returns (out1, proc1)
       /\ main_loop (H := Scenario.siteWorld) 5 2 false false EmptyString
            [(Scenario.oneByOne 12, Scenario.front)] proc1
          = Returns (out2,
                     snd (Scenario.value_of Scenario.secondCrawl ([], Scenario.fresh)))
       /\ ["http://example.com/a"; "http://example.com/b"; "http://example.com/c"]
          = out1 ++ out2
       /\ forall u, u ∈ out1 -> u ∉ out2.
Proof.
  assert (Hret : main_loop (H := Scenario.siteWorld) 5 2 false false EmptyString
      ([(Scenario.oneByOne 12, Scenario.front)]
       ++ [(Scenario.oneByOne 12, Scenario.front)]) Scenario.fresh
    = Returns (["http://example.com/a"; "http://example.com/b";
                "http://example.com/c"],
               snd (Scenario.value_of Scenario.secondCrawl ([], Scenario.fresh))))
    by (vm_compute; reflexivity).
  split; [exact Hret|].
  exact (main_prints_no_url_for_two_lines (H := Scenario.siteWorld)
           _ _ _ _ _ _ _ _ _ _ Hret).
Defined.

(** ** The pattern of line 70, for every plain hostname *)

(** *** [ReplaceAll] of the dots *)

Fixpoint escapeDots (s : string) : string :=
  match s with
  | EmptyString => EmptyString
  | String c s' =>
      if Ascii.eqb c "." then String "\" (String "." (escapeDots s'))
      else String c (escapeDots s')
  end.

Lemma lacks_nil (c : ascii) : lacks c EmptyString.
Proof. reflexivity. Qed.

Lemma lacks_cons_intro (c d : ascii) (a : string) :
  d <> c -> lacks c a -> lacks c (String d a).
Proof.
  unfold lacks, strings.Contains. intros Hne Ha. rewrite Index_unfold. simpl.
  destruct (Ascii.eqb_spec d c) as [->|_]; [congruence|]. simpl.
  apply Z.leb_gt in Ha. apply Z.leb_gt.
  destruct (strings.Index a (String c EmptyString) <? 0) eqn:E; [lia|].
  apply Z.ltb_ge in E. lia.
Qed.

Lemma escapeDots_lacking (a : string) : lacks "." a -> escapeDots a = a.
Proof.
  induction a as [|d a IH]; intros Hl; [reflexivity|].
  apply lacks_cons in Hl as [Hne Hl]. simpl.
  destruct (Ascii.eqb_spec d ".") as [->|_]; [congruence|]. rewrite (IH Hl).
  reflexivity.
Qed.

Lemma escapeDots_at_dot (a b : string) :
  lacks "." a ->
  escapeDots (a +:+ String "." b) = a +:+ "\." +:+ escapeDots b.
Proof.
  induction a as [|d a IH]; intros Hl; [reflexivity|].
  apply lacks_cons in Hl as [Hne Hl]. rewrite !append_cons. simpl.
  destruct (Ascii.eqb_spec d ".") as [->|_]; [congruence|]. rewrite (IH Hl).
  reflexivity.
Qed.

(** Where [Index] finds a one-byte separator, the string splits there, and
    the separator is not before. *)
Lemma Index_byte_found (c : ascii) (s : string) :
  0 <= strings.Index s (String c EmptyString) ->
  exists a b,
    s = a +:+ String c b /\ lacks c a
    /\ strings.Index s (String c EmptyString) = strings.len a.
Proof.
  induction s as [|d s IH]; rewrite Index_unfold.
  - simpl. lia.
  - simpl. rewrite HasPrefix_empty.
    destruct (Ascii.eqb_spec d c) as [->|Hne]; simpl.
    + intros _. exists EmptyString, s. repeat split.
    + destruct (strings.Index s (String c EmptyString) <? 0) eqn:E; [lia|].
      apply Z.ltb_ge in E. intros _.
      destruct (IH E) as (a & b & -> & Hl & Hidx).
      exists (String d a), b. split; [reflexivity|].
      split; [apply lacks_cons_intro; assumption|].
      rewrite Hidx. unfold strings.len. simpl String.length. lia.
Qed.

Lemma Replace_loop_dots (fuel : nat) :
  forall s, (String.length s <= fuel)%nat ->
    strings.Replace_loop fuel s "." "\." = escapeDots s.
Proof.
  induction fuel as [|fuel IH]; intros s Hlen.
  - destruct s; [reflexivity|simpl in Hlen; lia].
  - cbn [strings.Replace_loop].
    destruct (strings.Index s "." <? 0) eqn:E.
    + symmetry. apply escapeDots_lacking. unfold lacks, strings.Contains.
      apply Z.ltb_lt in E. apply Z.leb_gt. exact E.
    + apply Z.ltb_ge in E. destruct (Index_byte_found "." s E) as (a & b & -> & Hl & Hidx).
      assert (Hrest : strings.slice_from (a +:+ String "." b)
                        (strings.len a + strings.len ".") = b).
      { replace (strings.len a + strings.len ".") with (strings.len (a +:+ "."))
          by (unfold strings.len; rewrite length_append; simpl; lia).
        change (String "." b) with ("." +:+ b). rewrite <- append_assoc_s.
        apply slice_from_append. }
      rewrite Hidx, slice_to_append, Hrest, IH.
      * rewrite (escapeDots_at_dot _ _ Hl). reflexivity.
      * rewrite length_append in Hlen. simpl in Hlen. lia.
Qed.

Lemma ReplaceAll_dots_escape (s : string) :
  strings.ReplaceAll s "." "\." = escapeDots s.
Proof. apply Replace_loop_dots. lia. Qed.

(** *** How [Compile] reads the pattern *)

(** The parser after the bytes of [s], or the result that ends the parse. *)
Fixpoint feed (p : regexp.parser) (s : string)
  : regexp.parser + regexp.CompileResult :=
  match s with
  | EmptyString => inl p
  | String c s' =>
      match regexp.step p c with
      | inl p' => feed p' s'
      | inr res => inr res
      end
  end.

Lemma parseLoop_append (s1 s2 : string) :
  forall p p', feed p s1 = inl p' ->
    regexp.parseLoop p (s1 +:+ s2) = regexp.parseLoop p' s2.
Proof.
  induction s1 as [|c s1 IH]; intros p p' Hfeed.
  - injection Hfeed as <-. reflexivity.
  - rewrite append_cons. simpl in Hfeed |- *.
    destruct (regexp.step p c) as [p1|res]; [|discriminate]. apply IH, Hfeed.
Qed.

(** The literals of [h] on top of the items [its], newest first. *)
Fixpoint revLiterals (h : string) (its : list regexp.Regexp) : list regexp.Regexp :=
  match h with
  | EmptyString => its
  | String c h' => revLiterals h' (regexp.Literal c :: its)
  end.

(** The literals of [h] in a row, then [tail]. *)
Fixpoint litChain (h : string) (tail : regexp.Regexp) : regexp.Regexp :=
  match h with
  | EmptyString => tail
  | String c h' => regexp.Concat (regexp.Literal c) (litChain h' tail)
  end.

Lemma step_plain (c : ascii) (st : list regexp.frame) (al its : list regexp.Regexp) :
  plainByte c = true -> c <> "."%char ->
  regexp.step (regexp.Parser st (regexp.Frame al its) false false regexp.NoRepeat) c
  = inl (regexp.Parser st (regexp.Frame al (regexp.Literal c :: its))
           false false regexp.NoRepeat).
Proof.
  destruct c as [[] [] [] [] [] [] [] []]; intros Hplain Hdot;
    try discriminate Hplain; try reflexivity; congruence.
Qed.

Lemma feed_escapeDots (h : string) :
  plainHost h ->
  forall st al its,
    feed (regexp.Parser st (regexp.Frame al its) false false regexp.NoRepeat)
         (escapeDots h)
    = inl (regexp.Parser st (regexp.Frame al (revLiterals h its))
             false false regexp.NoRepeat).
Proof.
  unfold plainHost. induction h as [|c h IH]; intros Hplain st al its.
  - reflexivity.
  - simpl in Hplain. apply andb_true_iff in Hplain as [Hc Hh].
    cbn [escapeDots revLiterals].
    destruct (Ascii.eqb_spec c ".") as [->|Hne].
    + cbn [feed]. apply (IH Hh).
    + cbn [feed]. rewrite (step_plain c st al its Hc Hne). apply (IH Hh).
Qed.

Lemma concatOf_revLiterals (h : string) :
  forall its acc,
    fold_left (fun acc r => regexp.Concat r acc) (revLiterals h its) acc
    = fold_left (fun acc r => regexp.Concat r acc) its (litChain h acc).
Proof.
  induction h as [|c h IH]; intros its acc; [reflexivity|].
  cbn [revLiterals litChain]. rewrite IH. reflexivity.
Qed.

(** What line 70 compiles to: any bytes, a dot or two slashes, the
    hostname byte by byte, and an optional tail. *)
Definition hostTail : regexp.Regexp :=
  regexp.Concat
    (regexp.Quest
       (regexp.Concat
          (regexp.Alternate
             (regexp.Concat (regexp.Literal "#") regexp.EmptyMatch)
             (regexp.Alternate
                (regexp.Concat (regexp.Literal "/") regexp.EmptyMatch)
                (regexp.Concat (regexp.Literal "?") regexp.EmptyMatch)))
          (regexp.Concat (regexp.Star regexp.AnyCharNotNL) regexp.EmptyMatch)))
    regexp.EmptyMatch.

Definition hostLead : regexp.Regexp :=
  regexp.Alternate
    (regexp.Concat (regexp.Literal ".") regexp.EmptyMatch)
    (regexp.Concat (regexp.Literal "/")
       (regexp.Concat (regexp.Literal "/") regexp.EmptyMatch)).

Definition hostRegexp (h : string) : regexp.Regexp :=
  regexp.Concat (regexp.Star regexp.AnyCharNotNL)
    (regexp.Concat hostLead (litChain h hostTail)).

Lemma parseLoop_hostTail (its : list regexp.Regexp) :
  regexp.parseLoop
    (regexp.Parser [] (regexp.Frame [] its) false false regexp.NoRepeat)
    "((#|\/|\?).*)?"
  = regexp.Compiled (fold_left (fun acc r => regexp.Concat r acc) its hostTail).
Proof. vm_compute. reflexivity. Qed.

Lemma Compile_subsPattern (h : string) :
  plainHost h -> regexp.Compile (subsPattern h) = regexp.Compiled (hostRegexp h).
Proof.
  intros Hplain. unfold regexp.Compile, subsPattern.
  rewrite ReplaceAll_dots_escape.
  rewrite (parseLoop_append ".*(\.|\/\/)" _ _
             (regexp.Parser [] (regexp.Frame [] [hostLead; regexp.Star regexp.AnyCharNotNL])
                false false regexp.NoRepeat)) by reflexivity.
  rewrite (parseLoop_append (escapeDots h) _ _ _ (feed_escapeDots h Hplain _ _ _)).
  rewrite parseLoop_hostTail, concatOf_revLiterals. reflexivity.
Qed.

(** *** What the matcher decides *)

(** The strings a regular expression stands for. *)
Inductive matches : regexp.Regexp -> string -> Prop :=
| matches_Empty : matches regexp.EmptyMatch EmptyString
| matches_Literal c : matches (regexp.Literal c) (String c EmptyString)
| matches_Any c :
    c <> "010"%char -> matches regexp.AnyCharNotNL (String c EmptyString)
| matches_Concat r1 r2 s1 s2 :
    matches r1 s1 -> matches r2 s2 -> matches (regexp.Concat r1 r2) (s1 +:+ s2)
| matches_Left r1 r2 s : matches r1 s -> matches (regexp.Alternate r1 r2) s
| matches_Right r1 r2 s : matches r2 s -> matches (regexp.Alternate r1 r2) s
| matches_Star_nil r : matches (regexp.Star r) EmptyString
| matches_Star_more r s1 s2 :
    matches r s1 -> matches (regexp.Star r) s2 ->
    matches (regexp.Star r) (s1 +:+ s2).

Lemma append_nil_r (s : string) : s +:+ EmptyString = s.
Proof. induction s as [|c s IH]; [reflexivity|]. rewrite append_cons, IH. reflexivity. Qed.

Lemma append_eq_nil (a b : string) :
  a +:+ b = EmptyString -> a = EmptyString /\ b = EmptyString.
Proof. destruct a; [intros Hb; split; [reflexivity|exact Hb]|discriminate]. Qed.

Lemma append_eq_cons (a b : string) (c : ascii) (s : string) :
  a +:+ b = String c s ->
  (a = EmptyString /\ b = String c s)
  \/ exists a', a = String c a' /\ s = a' +:+ b.
Proof.
  destruct a as [|d a].
  - intros Hb. left. split; [reflexivity|exact Hb].
  - rewrite append_cons. intros [= -> <-]. right. exists a. split; reflexivity.
Qed.

Lemma matches_Concat_inv (r1 r2 : regexp.Regexp) (s : string) :
  matches (regexp.Concat r1 r2) s ->
  exists s1 s2, s = s1 +:+ s2 /\ matches r1 s1 /\ matches r2 s2.
Proof. intros Hm. inversion Hm; subst. eauto. Qed.

Lemma matches_Alternate_inv (r1 r2 : regexp.Regexp) (s : string) :
  matches (regexp.Alternate r1 r2) s -> matches r1 s \/ matches r2 s.
Proof. intros Hm. inversion Hm; subst; auto. Qed.

Lemma matches_NoMatch (s : string) : ~ matches regexp.NoMatch s.
Proof. intros Hm. inversion Hm. Qed.

Lemma matches_Empty_inv (s : string) : matches regexp.EmptyMatch s -> s = EmptyString.
Proof. intros Hm. inversion Hm. reflexivity. Qed.

Lemma matches_Literal_inv (c : ascii) (s : string) :
  matches (regexp.Literal c) s -> s = String c EmptyString.
Proof. intros Hm. inversion Hm. reflexivity. Qed.

Lemma nullable_matches (r : regexp.Regexp) :
  regexp.nullable r = true <-> matches r EmptyString.
Proof.
  split.
  - induction r as [| |c| |r1 IH1 r2 IH2|r1 IH1 r2 IH2|r IH]; simpl; intros Hn;
      try discriminate.
    + constructor.
    + apply andb_true_iff in Hn as [H1 H2].
      apply (matches_Concat r1 r2 EmptyString EmptyString); auto.
    + apply orb_true_iff in Hn as [H1|H2];
        [apply matches_Left|apply matches_Right]; auto.
    + constructor.
  - intros Hm. remember EmptyString as s eqn:Hs.
    induction Hm as [|c|c Hc|r1 r2 s1 s2 H1 IH1 H2 IH2|r1 r2 s H1 IH1|r1 r2 s H2 IH2
                     |r|r s1 s2 H1 IH1 H2 IH2]; simpl; try discriminate; try reflexivity.
    + apply append_eq_nil in Hs as [-> ->].
      rewrite IH1, IH2; reflexivity.
    + rewrite (IH1 Hs). reflexivity.
    + rewrite (IH2 Hs). apply orb_true_r.
Qed.

Lemma matches_mkConcat (r1 r2 : regexp.Regexp) (s : string) :
  matches (regexp.mkConcat r1 r2) s <-> matches (regexp.Concat r1 r2) s.
Proof.
  split.
  - destruct r1, r2; simpl; intros Hm;
      try exact Hm; try (destruct (matches_NoMatch _ Hm));
      apply (matches_Concat regexp.EmptyMatch _ EmptyString s);
      first [exact Hm|apply matches_Empty].
  - intros Hm. apply matches_Concat_inv in Hm as (s1 & s2 & -> & H1 & H2).
    destruct r1, r2; simpl;
      try (destruct (matches_NoMatch _ H1)); try (destruct (matches_NoMatch _ H2));
      try (apply matches_Empty_inv in H1; subst s1; exact H2);
      apply matches_Concat; assumption.
Qed.

Lemma matches_mkAlternate (r1 r2 : regexp.Regexp) (s : string) :
  matches (regexp.mkAlternate r1 r2) s <-> matches (regexp.Alternate r1 r2) s.
Proof.
  split.
  - destruct r1, r2; simpl; intros Hm; try exact Hm;
      try (apply matches_Right; exact Hm); try (apply matches_Left; exact Hm).
  - intros Hm. apply matches_Alternate_inv in Hm as [H1|H2];
      destruct r1, r2; simpl;
      try (destruct (matches_NoMatch _ H1)); try (destruct (matches_NoMatch _ H2));
      try assumption;
      try (apply matches_Left; assumption); try (apply matches_Right; assumption).
Qed.

(** A match of a star that starts with a byte starts with a match of the
    body that starts with that byte. *)
Lemma matches_Star_cons (r : regexp.Regexp) (c : ascii) (s : string) :
  matches (regexp.Star r) (String c s) ->
  exists s1 s2,
    s = s1 +:+ s2 /\ matches r (String c s1) /\ matches (regexp.Star r) s2.
Proof.
  intros Hm. remember (regexp.Star r) as re eqn:Hre.
  remember (String c s) as w eqn:Hw. revert s Hw.
  induction Hm as [|c'|c' Hc|r1 r2 s1 s2 H1 IH1 H2 IH2|r1 r2 s' H1 IH1|r1 r2 s' H2 IH2
                   |r'|r' s1 s2 H1 IH1 H2 IH2]; intros s Hw; try discriminate.
  injection Hre as ->.
  apply append_eq_cons in Hw as [[-> ->]|(a' & -> & ->)].
  - apply (IH2 eq_refl). reflexivity.
  - exists a', s2. repeat split; assumption.
Qed.

Lemma deriv_matches (r : regexp.Regexp) :
  forall c s, matches (regexp.deriv c r) s <-> matches r (String c s).
Proof.
  induction r as [| |c'| |r1 IH1 r2 IH2|r1 IH1 r2 IH2|r IH]; intros c s; simpl.
  - split; intros Hm; inversion Hm.
  - split; intros Hm; inversion Hm.
  - destruct (Ascii.eqb_spec c c') as [->|Hne].
    + split; intros Hm.
      * apply matches_Empty_inv in Hm. subst s. constructor.
      * apply matches_Literal_inv in Hm. injection Hm as ->. constructor.
    + split; intros Hm; [inversion Hm|].
      apply matches_Literal_inv in Hm. congruence.
  - destruct (Ascii.eqb_spec c "010") as [->|Hne].
    + split; intros Hm; inversion Hm; congruence.
    + split; intros Hm.
      * apply matches_Empty_inv in Hm. subst s. constructor. exact Hne.
      * inversion Hm; subst. constructor.
  - assert (Hcat : matches (regexp.mkConcat (regexp.deriv c r1) r2) s
                   <-> exists a' s2, s = a' +:+ s2 /\ matches r1 (String c a')
                                     /\ matches r2 s2).
    { rewrite matches_mkConcat. split.
      - intros Hm. apply matches_Concat_inv in Hm as (a' & s2 & -> & H1 & H2).
        exists a', s2. rewrite <- IH1. auto.
      - intros (a' & s2 & -> & H1 & H2). apply matches_Concat; [apply IH1|]; auto. }
    destruct (regexp.nullable r1) eqn:Hn.
    + rewrite matches_mkAlternate. split.
      * intros Hm. apply matches_Alternate_inv in Hm as [Hm|Hm].
        -- apply Hcat in Hm as (a' & s2 & -> & H1 & H2).
           apply (matches_Concat r1 r2 (String c a') s2); assumption.
        -- apply IH2 in Hm. apply nullable_matches in Hn.
           apply (matches_Concat r1 r2 EmptyString (String c s)); assumption.
      * intros Hm. apply matches_Concat_inv in Hm as (s1 & s2 & Heq & H1 & H2).
        symmetry in Heq. apply append_eq_cons in Heq as [[-> ->]|(a' & -> & ->)].
        -- apply matches_Right. apply IH2. exact H2.
        -- apply matches_Left. apply Hcat. eauto.
    + rewrite Hcat. split.
      * intros (a' & s2 & -> & H1 & H2).
        apply (matches_Concat r1 r2 (String c a') s2); assumption.
      * intros Hm. apply matches_Concat_inv in Hm as (s1 & s2 & Heq & H1 & H2).
        symmetry in Heq. apply append_eq_cons in Heq as [[-> ->]|(a' & -> & ->)].
        -- apply nullable_matches in H1. congruence.
        -- eauto.
  - rewrite matches_mkAlternate. split.
    + intros Hm. apply matches_Alternate_inv in Hm as [Hm|Hm];
        [apply matches_Left, IH1|apply matches_Right, IH2]; exact Hm.
    + intros Hm. apply matches_Alternate_inv in Hm as [Hm|Hm];
        [apply matches_Left, IH1|apply matches_Right, IH2]; exact Hm.
  - rewrite matches_mkConcat. split.
    + intros Hm. apply matches_Concat_inv in Hm as (s1 & s2 & -> & H1 & H2).
      apply (matches_Star_more r (String c s1) s2); [apply IH|]; assumption.
    + intros Hm. apply matches_Star_cons in Hm as (s1 & s2 & -> & H1 & H2).
      apply matches_Concat; [apply IH|]; assumption.
Qed.

Lemma matchPrefix_spec (s : string) :
  forall r,
    regexp.matchPrefix r s = true
    <-> exists m rest, s = m +:+ rest /\ matches r m.
Proof.
  induction s as [|c s IH]; intros r; simpl.
  - rewrite orb_false_r, nullable_matches. split.
    + intros Hm. exists EmptyString, EmptyString. split; [reflexivity|exact Hm].
    + intros (m & rest & Heq & Hm). symmetry in Heq.
      apply append_eq_nil in Heq as [-> _]. exact Hm.
  - rewrite orb_true_iff, nullable_matches, IH. split.
    + intros [Hm|(m & rest & -> & Hm)].
      * exists EmptyString, (String c s). split; [reflexivity|exact Hm].
      * exists (String c m), rest. split; [reflexivity|]. apply deriv_matches, Hm.
    + intros (m & rest & Heq & Hm). symmetry in Heq.
      apply append_eq_cons in Heq as [[-> _]|(a' & -> & ->)].
      * left. exact Hm.
      * right. exists a', rest. split; [reflexivity|]. apply deriv_matches, Hm.
Qed.

(** [MatchString] finds a match anywhere in the string. *)
Lemma MatchString_spec (s : string) :
  forall r,
    regexp.MatchString r s = true
    <-> exists before m after, s = before +:+ m +:+ after /\ matches r m.
Proof.
  induction s as [|c s IH]; intros r; cbn [regexp.MatchString].
  - rewrite orb_false_r, matchPrefix_spec. split.
    + intros (m & rest & Heq & Hm). exists EmptyString, m, rest. auto.
    + intros (before & m & after & Heq & Hm). symmetry in Heq.
      apply append_eq_nil in Heq as [-> Heq]. apply append_eq_nil in Heq as [-> ->].
      exists EmptyString, EmptyString. auto.
  - rewrite orb_true_iff, matchPrefix_spec, IH. split.
    + intros [(m & rest & Heq & Hm)|(before & m & after & -> & Hm)].
      * exists EmptyString, m, rest. auto.
      * exists (String c before), m, after. auto.
    + intros (before & m & after & Heq & Hm). destruct before as [|d before].
      * left. exists m, after. auto.
      * right. rewrite append_cons in Heq. injection Heq as -> ->.
        exists before, m, after. auto.
Qed.

(** *** The strings the pattern accepts *)

Lemma Contains_iff (u x : string) :
  strings.Contains u x = true <-> exists a b, u = a +:+ x +:+ b.
Proof.
  split.
  - unfold strings.Contains. intros Hc. apply Z.leb_le in Hc. revert Hc.
    induction u as [|d u IH]; rewrite Index_unfold.
    + destruct (strings.HasPrefix EmptyString x) eqn:E; [|lia]. intros _.
      apply HasPrefix_true in E as [r ->]. exists EmptyString, r. reflexivity.
    + destruct (strings.HasPrefix (String d u) x) eqn:E.
      * intros _. apply HasPrefix_true in E as [r ->]. exists EmptyString, r.
        reflexivity.
      * cbv zeta. destruct (strings.Index u x <? 0) eqn:E2; [lia|].
        apply Z.ltb_ge in E2. intros _. destruct (IH E2) as (a & b & ->).
        exists (String d a), b. reflexivity.
  - intros (a & b & ->). apply Contains_append_r.
    unfold strings.Contains. rewrite Index_unfold, HasPrefix_append. reflexivity.
Qed.

Lemma litChain_matches (h : string) (tail : regexp.Regexp) :
  forall m,
    matches (litChain h tail) m <-> exists m', m = h +:+ m' /\ matches tail m'.
Proof.
  induction h as [|c h IH]; intros m; cbn [litChain].
  - split; [intros Hm; exists m; auto|intros (m' & -> & Hm); exact Hm].
  - split.
    + intros Hm. apply matches_Concat_inv in Hm as (s1 & s2 & -> & H1 & H2).
      apply matches_Literal_inv in H1. subst s1.
      apply IH in H2 as (m' & -> & Hm'). exists m'. split; [reflexivity|exact Hm'].
    + intros (m' & -> & Hm').
      apply (matches_Concat _ _ (String c EmptyString) (h +:+ m'));
        [constructor|]. apply IH. eauto.
Qed.

Lemma hostLead_matches (g : string) :
  matches hostLead g <-> g = "." \/ g = "//".
Proof.
  unfold hostLead. split.
  - intros Hm. apply matches_Alternate_inv in Hm as [Hm|Hm].
    + apply matches_Concat_inv in Hm as (s1 & s2 & -> & H1 & H2).
      apply matches_Literal_inv in H1. apply matches_Empty_inv in H2. subst.
      left. reflexivity.
    + apply matches_Concat_inv in Hm as (s1 & s2 & -> & H1 & H2).
      apply matches_Concat_inv in H2 as (s3 & s4 & -> & H3 & H4).
      apply matches_Literal_inv in H1, H3. apply matches_Empty_inv in H4. subst.
      right. reflexivity.
  - intros [->| ->].
    + apply matches_Left.
      apply (matches_Concat _ _ "." EmptyString); constructor.
    + apply matches_Right.
      apply (matches_Concat _ _ "/" "/"); [constructor|].
      apply (matches_Concat _ _ "/" EmptyString); constructor.
Qed.

Lemma hostTail_matches_nil : matches hostTail EmptyString.
Proof. apply nullable_matches. reflexivity. Qed.

Lemma hostRegexp_matches_inv (h m : string) :
  matches (hostRegexp h) m ->
  exists x d t, (d = "." \/ d = "//") /\ m = x +:+ (d +:+ h) +:+ t.
Proof.
  unfold hostRegexp. intros Hm.
  apply matches_Concat_inv in Hm as (x & m1 & -> & _ & Hm).
  apply matches_Concat_inv in Hm as (d & m2 & -> & Hd & Hm).
  apply hostLead_matches in Hd.
  apply litChain_matches in Hm as (t & -> & _).
  exists x, d, t. split; [exact Hd|]. rewrite !append_assoc_s. reflexivity.
Qed.

Lemma hostRegexp_matches_lead (h d : string) :
  d = "." \/ d = "//" -> matches (hostRegexp h) (d +:+ h).
Proof.
  intros Hd. unfold hostRegexp.
  apply (matches_Concat _ _ EmptyString (d +:+ h)); [constructor|].
  apply matches_Concat; [apply hostLead_matches, Hd|].
  apply litChain_matches. exists EmptyString.
  split; [rewrite append_nil_r; reflexivity|apply hostTail_matches_nil].
Qed.

Lemma hostRegexp_MatchString (h u : string) :
  regexp.MatchString (hostRegexp h) u = true
  <-> strings.Contains u ("." +:+ h) = true
      \/ strings.Contains u ("//" +:+ h) = true.
Proof.
  rewrite MatchString_spec, !Contains_iff. split.
  - intros (before & m & after & -> & Hm).
    apply hostRegexp_matches_inv in Hm as (x & d & t & Hd & ->).
    destruct Hd as [->| ->]; [left|right];
      exists (before +:+ x), (t +:+ after); rewrite !append_assoc_s; reflexivity.
  - intros [(a & b & ->)|(a & b & ->)].
    + exists a, ("." +:+ h), b. split; [reflexivity|].
      apply hostRegexp_matches_lead. left. reflexivity.
    + exists a, ("//" +:+ h), b. split; [reflexivity|].
      apply hostRegexp_matches_lead. right. reflexivity.
Qed.

(** X13. What the filter of line 70 accepts, for every hostname of plain
    bytes (ASCII, no byte with a meaning in a pattern but the dot, which
    the line escapes): the pattern compiles, and [Match] accepts a URL
    exactly when the URL contains [.hostname] or [//hostname] somewhere.
    Nothing ties the match to the URL's host or to the end of the
    hostname. *)
Theorem subs_filter_is_a_substring_test (hostname : string) :
  plainHost hostname ->
  exists re,
    regexp.MustCompile (subsPattern hostname) = Returns re
    /\ forall u,
         regexp.MatchString re u = true
         <-> strings.Contains u ("." +:+ hostname) = true
             \/ strings.Contains u ("//" +:+ hostname) = true.
Proof.
  intros Hplain. exists (hostRegexp hostname). split.
  - unfold regexp.MustCompile. rewrite (Compile_subsPattern _ Hplain). reflexivity.
  - intros u. apply hostRegexp_MatchString.
Qed.

Lemma subs_filter_is_a_substring_test_witness :
  plainHost "example.com"
  /\ exists re,
       regexp.MustCompile (subsPattern "example.com") = Returns re
       /\ forall u,
            regexp.MatchString re u = true
            <-> strings.Contains u ("." +:+ "example.com") = true
                \/ strings.Contains u ("//" +:+ "example.com") = true.
Proof.
  assert (Hplain : plainHost "example.com") by reflexivity.
  split; [exact Hplain|].
  exact (subs_filter_is_a_substring_test "example.com" Hplain).
Defined.

(** ** What a crawl leaves in [sm] *)








Section Settled.

Context `{World}.
Variable c : Collector.
Hypothesis c_htmlCallbacks :
  htmlCallbacks c
  = [("a[href]", onAnchor); ("script[src]", onScript); ("form[action]", onForm)].
Variable D0 : gset string.









End Settled.



(** ** The text [printResults] writes *)

Lemma printResults_length (results : list string) :
  (length results <= String.length (printResults results))%nat.
Proof.
  induction results as [|res rest IH]; simpl; [lia|].
  rewrite !length_append. simpl. lia.
Qed.

Lemma genSplit_loop_printResults (results : list string) :
  Forall (lacks newline) results ->
  forall n, (length results <= n)%nat ->
    strings.genSplit_loop n (printResults results) (String newline EmptyString)
    = results ++ [EmptyString].
Proof.
  induction 1 as [|res rest Hres _ IH]; intros n Hn.
  - apply genSplit_loop_no_sep. reflexivity.
  - destruct n as [|n]; [simpl in Hn; lia|].
    cbn [printResults]. rewrite (genSplit_loop_cut n newline EmptyString _ _ Hres).
    rewrite IH by (simpl in Hn; lia). reflexivity.
Qed.

(** X15. One line per result: when no result holds a newline, the text
    [printResults] writes splits at the newlines into the results, in
    order, followed by the empty piece after the last newline.  So a
    reader of the output gets back the slice that [StartCrawler]
    returned. *)
Theorem printResults_one_line_each (results : list string) :
  Forall (lacks newline) results ->
  strings.Split (printResults results) (String newline EmptyString)
  = results ++ [EmptyString].
Proof.
  intros Hres. unfold strings.Split.
  apply genSplit_loop_printResults; [exact Hres|apply printResults_length].
Qed.

Lemma printResults_one_line_each_witness :
  Forall (lacks newline) ["http://example.com/a"; "http://example.com/b"]
  /\ strings.Split (printResults ["http://example.com/a"; "http://example.com/b"])
       (String newline EmptyString)
     = ["http://example.com/a"; "http://example.com/b"] ++ [EmptyString].
Proof.
  assert (Hres : Forall (lacks newline)
                   ["http://example.com/a"; "http://example.com/b"])
    by (repeat constructor).
  split; [exact Hres|].
  exact (printResults_one_line_each _ Hres).
Defined.

(** ** Scope with [subsInScope] *)

Lemma newCrawler_subs_filter `{World} (hostname : string) (threads depth : Z)
    (insecure : bool) (headers : option (gmap string string)) (c : Collector) :
  newCrawler hostname threads depth true insecure headers = Returns c ->
  exists re,
    regexp.MustCompile (subsPattern hostname) = Returns re /\ URLFilters c = [re].
Proof.
  unfold newCrawler.
  destruct (regexp.MustCompile (subsPattern hostname)) as [re| | |];
    cbn [obind]; try discriminate.
  intros [= <-]. exists re. split; [reflexivity|]. destruct headers; reflexivity.
Qed.

(** X16. Scope with [subsInScope], for a seed whose hostname is of plain
    bytes: every request a crawl sends was made for a URL that passed the
    filter of line 70, that is, a URL that contains [.hostname] or
    [//hostname]; the request goes to that URL as [url.Parse] reads it,
    with scheme [http] when it has none.  This holds whatever the
    schedule and the depth. *)
Theorem requests_pass_subs_filter `{World} (schedule : list nat)
    (url : string) (threads depth : Z) (insecure : bool)
    (rawHeaders : string) (proc : process) (res : list string) (proc' : process)
    (hostname : string) :
  plainHost hostname ->
  extractHostname (defaultScheme url) = (hostname, None) ->
  StartCrawler schedule url threads depth true insecure rawHeaders proc
    = Returns (res, proc') ->
  exists new,
    proc_sent proc' = proc_sent proc ++ new
    /\ forall r, r ∈ new ->
         exists (u : string) (parsedURL : URL),
           (strings.Contains u ("." +:+ hostname) = true
            \/ strings.Contains u ("//" +:+ hostname) = true)
           /\ parses_to u parsedURL
           /\ req_URL r = URL_String parsedURL.
Proof.
  intros Hplain Hhost Hret. apply StartCrawler_returns_run in Hret.
  destruct Hret as [[-> ->]|(hostname' & parsed & c & Hhost' & _ & Hc & -> & ->)].
  - exists []. rewrite app_nil_r. split; [reflexivity|].
    intros r Hr. apply elem_of_nil in Hr. destruct Hr.
  - rewrite Hhost in Hhost'. injection Hhost' as <-.
    pose proof (newCrawler_fields _ _ _ _ _ _ _ Hc) as (_ & _ & Hcb & _).
    pose proof (newCrawler_keeps_depth _ _ _ _ _ _ _ Hc) as Hdepth.
    pose proof (newCrawler_keeps_url _ _ _ _ _ _ _ Hc) as Hurl.
    destruct (newCrawler_subs_filter _ _ _ _ _ _ Hc) as (re & Hre & Hfilters).
    unfold regexp.MustCompile in Hre.
    rewrite (Compile_subsPattern _ Hplain) in Hre. injection Hre as <-.
    pose (Q := fun (u' : string) (_ : Z) =>
      exists (u : string) (parsedURL : URL),
        (strings.Contains u ("." +:+ hostname) = true
         \/ strings.Contains u ("//" +:+ hostname) = true)
        /\ parses_to u parsedURL
        /\ u' = URL_String parsedURL).
    assert (HQ : forall (u : string) d (parsedURL : URL),
      ((0 <? MaxDepth c) && (MaxDepth c <? d)) = false ->
      isDomainAllowed c (URL_Host parsedURL) = true ->
      passes_filters c u ->
      parses_to u parsedURL ->
      (d = 1 \/ exists (u0 : string) (d0 : Z), Q u0 d0 /\ d = int (d0 + 1)) ->
      Q (URL_String parsedURL) d).
    { intros u d parsedURL _ _ Hpass Hparse _. exists u, parsedURL.
      split; [|split; [exact Hparse|reflexivity]].
      apply hostRegexp_MatchString.
      unfold passes_filters in Hpass. rewrite Hfilters in Hpass.
      cbn [length isMatchingFilter existsb] in Hpass.
      rewrite orb_false_r in Hpass.
      destruct (regexp.MatchString (hostRegexp hostname) u);
        [reflexivity|discriminate Hpass]. }
    destruct (crawl_inv_from_Visit c Hcb Hdepth Q HQ (proc_sent proc) schedule
                (defaultScheme url) proc eq_refl) as (new & Hsent & Hnew & _ & _).
    exists new. split; [exact Hsent|]. intros r Hr.
    rewrite Forall_forall in Hnew. destruct (Hnew r Hr) as (u' & d & Hq & ->).
    rewrite Hurl. exact Hq.
Qed.

Lemma requests_pass_subs_filter_witness :
  plainHost "example.com"
  /\ extractHostname (H := Scenario.siteWorld) (defaultScheme "example.com/subs")
     = ("example.com", None)
  /\ StartCrawler (H := Scenario.siteWorld) (Scenario.oneByOne 20) "example.com/subs"
       5 2 true false EmptyString Scenario.fresh
     = Returns (["http://api.example.com/y"; "http://notexample.com/z";
                 "http://example.com.evil.com/"; "http://api.example.com/login";
                 "http://example.com.evil.com/login"],
                snd (Scenario.value_of subsCrawl ([], Scenario.fresh)))
  /\ exists new,
       proc_sent (snd (Scenario.value_of subsCrawl ([], Scenario.fresh)))
         = proc_sent Scenario.fresh ++ new
       /\ forall r, r ∈ new ->
            exists (u : string) (parsedURL : Scenario.SimpleURL),
              (strings.Contains u ("." +:+ "example.com") = true
               \/ strings.Contains u ("//" +:+ "example.com") = true)
              /\ parses_to (H := Scenario.siteWorld) u parsedURL
              /\ req_URL r = Scenario.toString parsedURL.
Proof.
  assert (Hplain : plainHost "example.com") by reflexivity.
  assert (Hhost : extractHostname (H := Scenario.siteWorld)
                    (defaultScheme "example.com/subs") = ("example.com", None))
    by reflexivity.
  assert (Hret : StartCrawler (H := Scenario.siteWorld) (Scenario.oneByOne 20)
      "example.com/subs" 5 2 true false EmptyString Scenario.fresh
    = Returns (["http://api.example.com/y"; "http://notexample.com/z";
                "http://example.com.evil.com/"; "http://api.example.com/login";
                "http://example.com.evil.com/login"],
               snd (Scenario.value_of subsCrawl ([], Scenario.fresh))))
    by (vm_compute; reflexivity).
  split; [exact Hplain|]. split; [exact Hhost|]. split; [exact Hret|].
  exact (requests_pass_subs_filter (H := Scenario.siteWorld)
           _ _ _ _ _ _ _ _ _ _ Hplain Hhost Hret).
Defined.

(** ** A crawl with a depth cap comes to an end *)






Section Capped.

Context `{World}.
Variable c : Collector.
Hypothesis c_htmlCallbacks :
  htmlCallbacks c
  = [("a[href]", onAnchor); ("script[src]", onScript); ("form[action]", onForm)].
Hypothesis c_keeps_depth :
  forall r, req_Depth (handleOnRequest c r) = req_Depth r.
Hypothesis c_MaxDepth : 0 < MaxDepth c < 2 ^ 63 - 1.











End Capped.



